(** * The task orchestrator of make-it-heavy-js

    A shallow embedding of [TaskOrchestrator] (src/orchestrator.ts, and the
    second copy of the class kept in src/make_it_heavy.ts) together with the
    properties of decomposition, dispatch, progress tracking and aggregation.

    Conventions of the embedding:
    - a JavaScript [number] that the code uses as an integer (agent count,
      slot id, timeout in seconds) is a [Z]; [execution_time], which is a
      quotient of milliseconds by 1000, is a [Q];
    - a [Map<number, string>] is a [gmap Z string]; Map objects live in a
      store and are named by their location, so that aliasing is visible;
    - the store also records every [Map.set] and every start of an agent,
      in the order of execution;
    - an [await] on an agent is modelled at its settlement: the question and
      the synthesis agent settle with a [reply] given by the [world]; the
      agents of the slots and the timers settle through a schedule of
      [event]s, one macrotask each, in the order the event loop runs them;
      the callbacks that an earlier call has left behind are macrotasks of
      their own;
    - a rejection carries an [Error] whose [message] is a string;
    - the configuration has the fields and the types that [AppConfig]
      declares;
    - [console] output is not modelled. *)

From Stdlib Require Import ZArith QArith String Ascii List Lia.
From stdpp Require Import base option list gmap strings pretty.
From Stdlib Require Import Qround.

Local Open Scope string_scope.
Local Open Scope list_scope.
Local Open Scope Z_scope.

(** ** Strings and arrays of the JavaScript runtime *)

Module JS.

(** The line feed written [\n] in the source. *)
Definition LF : string := String (ascii_of_nat 10) EmptyString.

(** [String(n)] for an integer [n]. *)
Definition String_of_Z (n : Z) : string := pretty n.

(** [Array.prototype.slice(0, end)]: a negative [end] counts from the end
    of the array, and the result never runs past the array. *)
Definition slice0 {A} (arr : list A) (e : Z) : list A :=
  let len := Z.of_nat (length arr) in
  let final := if e <? 0 then Z.max (len + e) 0 else Z.min e len in
  take (Z.to_nat final) arr.

(** The replacement text of [String.prototype.replace] for a string
    pattern (GetSubstitution with no captures): [$$] is a dollar sign,
    [$&] the matched text, [$`] what precedes the match, [$'] what follows
    it; any other [$] stays as it is. *)
Fixpoint GetSubstitution (matched before after repl : string) : string :=
  match repl with
  | EmptyString => EmptyString
  | String c rest =>
      if Ascii.eqb c "$" then
        match rest with
        | EmptyString => String c EmptyString
        | String k rest' =>
            if Ascii.eqb k "$" then
              String "$" (GetSubstitution matched before after rest')
            else if Ascii.eqb k "&" then
              matched +:+ GetSubstitution matched before after rest'
            else if Ascii.eqb k "`" then
              before +:+ GetSubstitution matched before after rest'
            else if Ascii.eqb k "'" then
              after +:+ GetSubstitution matched before after rest'
            else
              String c (String k (GetSubstitution matched before after rest'))
        end
      else String c (GetSubstitution matched before after rest)
  end.

(** [str.replace(pattern, repl)] with a string pattern: the first
    occurrence only. *)
Definition replace (str pattern repl : string) : string :=
  match String.index 0 pattern str with
  | None => str
  | Some pos =>
      let before := String.substring 0 pos str in
      let after :=
        String.substring (pos + String.length pattern)
          (String.length str - (pos + String.length pattern)) str in
      before +:+ GetSubstitution pattern before after repl +:+ after
  end.

(** White space and line terminators that fit in one byte. *)
Definition is_space (c : ascii) : bool :=
  let n := nat_of_ascii c in
  ((9 <=? n) && (n <=? 13))%nat || (n =? 32)%nat.

Fixpoint trimStart (s : string) : string :=
  match s with
  | String c rest => if is_space c then trimStart rest else s
  | EmptyString => EmptyString
  end.

Fixpoint trimEnd (s : string) : string :=
  match s with
  | EmptyString => EmptyString
  | String c rest =>
      match trimEnd rest with
      | EmptyString => if is_space c then EmptyString else String c EmptyString
      | rest' => String c rest'
      end
  end.

(** [String.prototype.trim], for the white space that fits in one byte. *)
Definition trim (s : string) : string := trimEnd (trimStart s).

(** [Array.prototype.join] on an array of strings. *)
Definition join (sep : string) (arr : list string) : string :=
  String.concat sep arr.

(** [Array.prototype.sort(cmp)]: a stable sort; [x] goes before the
    first element that the comparator does not put before it. *)
Fixpoint insert {A} (cmp : A -> A -> Z) (x : A) (sorted : list A) : list A :=
  match sorted with
  | [] => [x]
  | y :: rest => if cmp x y <=? 0 then x :: y :: rest else y :: insert cmp x rest
  end.

Definition sort {A} (cmp : A -> A -> Z) (arr : list A) : list A :=
  foldr (insert cmp) [] arr.

(** A value produced by [JSON.parse]. *)
#[local] Set Warnings "-register-all".
Inductive json : Type :=
| JNull
| JBool (b : bool)
| JNumber (q : Q)
| JString (s : string)
| JArray (items : list json)
| JObject (members : list (string * json)).

End JS.

Export JS (json, JNull, JBool, JNumber, JString, JArray, JObject, LF).

(** ** Type definitions *)

Module Config.

Record OpenRouterConfig : Type := {
  model : string;
  api_key : string;
}.

Record OrchestratorConfig : Type := {
  parallel_agents : Z;
  task_timeout : Z;
  aggregation_strategy : string;
  question_generation_prompt : string;
  synthesis_prompt : string;
}.

Record AppConfig : Type := {
  openrouter : OpenRouterConfig;
  orchestrator : OrchestratorConfig;
}.

End Config.

(** [AgentResult.status]. *)
Inductive Status : Type := success | error | timeout.

#[global] Instance Status_eq_dec : EqDecision Status.
Proof. solve_decision. Defined.

Record AgentResult : Type := {
  agent_id : Z;
  status : Status;
  response : string;
  execution_time : Q;
}.

(** The values of the enum [AgentStatus] (src/src/types.ts), which are the
    status strings written as literals in src/orchestrator.ts. *)
Module AgentStatus.
Definition QUEUED : string := "QUEUED".
Definition INITIALIZING : string := "INITIALIZING...".
Definition PROCESSING : string := "PROCESSING...".
Definition COMPLETED : string := "COMPLETED".
Definition AGGREGATING : string := "AGGREGATING...".
Definition FAILED : string := "FAILED".
End AgentStatus.

(** ** The world outside the orchestrator *)

(** How a call of [OpenRouterAgent.run] settles. *)
Inductive reply : Type :=
| Resolved (text : string)
| Rejected (message : string).

(** [JSON_parse] is [JSON.parse] ([None] when it throws); the two agents
    that the controller awaits directly answer as functions of their
    prompt. *)
Record world : Type := {
  JSON_parse : string -> option json;
  question_agent : string -> reply;
  synthesis_agent : string -> reply;
}.

(** ** The store: Map objects, and what was done to the outside *)

(** A location of the store. *)
Abbreviation loc := nat (only parsing).

(** Which agent instance was run. *)
Inductive role : Type :=
| QuestionAgent
| SlotAgent (agentId : Z)
| SynthesisAgent.

(** What the code does that another party can see: a [Map.set] and the
    start of an agent. *)
Inductive effect : Type :=
| Wrote (m : loc) (k : Z) (v : string)
| Ran (who : role) (prompt : json).

Record store : Type := {
  maps : list (gmap Z string);        (* the Map objects, by location *)
  set_log : list (loc * Z * string);  (* every [Map.set], oldest first *)
  runs : list (role * json);          (* every [agent.run(prompt)], oldest first *)
  trace : list effect;                (* both of them, in the order of execution *)
}.

Definition empty_store : store :=
  {| maps := []; set_log := []; runs := []; trace := [] |}.

(** Code that reads and writes the store. *)
Definition M (A : Type) : Type := store -> A * store.

Definition ret {A} (a : A) : M A := fun s => (a, s).

Definition bind {A B} (m : M A) (k : A -> M B) : M B :=
  fun s => let (a, s') := m s in k a s'.

Notation "x <- c ;; k" := (bind c (fun x => k))
  (at level 100, c at next level, right associativity).
Notation "c ;; k" := (bind c (fun _ => k))
  (at level 100, right associativity).

(** A [for] loop, or [forEach], run for its effects. *)
Fixpoint for_each {A} (body : A -> M unit) (xs : list A) : M unit :=
  match xs with
  | [] => ret tt
  | x :: xs' => body x ;; for_each body xs'
  end.

Module Map.

(** The content of the Map at [m]. *)
Definition content (s : store) (m : loc) : gmap Z string :=
  default ∅ (maps s !! m).

(** [new Map()]. *)
Definition new : M loc :=
  fun s => (length (maps s),
            {| maps := maps s ++ [∅]; set_log := set_log s; runs := runs s;
               trace := trace s |}).

(** [new Map(src)]: a new object with the entries of [src]. *)
Definition copy (src : loc) : M loc :=
  fun s => (length (maps s),
            {| maps := maps s ++ [content s src];
               set_log := set_log s; runs := runs s; trace := trace s |}).

(** [m.set(k, v)]. *)
Definition set (m : loc) (k : Z) (v : string) : M unit :=
  fun s => (tt,
            {| maps := alter (insert k v) m (maps s);
               set_log := set_log s ++ [(m, k, v)]; runs := runs s;
               trace := trace s ++ [Wrote m k v] |}).

(** [m.delete(k)]. *)
Definition delete (m : loc) (k : Z) : M unit :=
  fun s => (tt,
            {| maps := alter (base.delete k) m (maps s);
               set_log := set_log s; runs := runs s; trace := trace s |}).

(** [m.clear()]. *)
Definition clear (m : loc) : M unit :=
  fun s => (tt,
            {| maps := alter (fun _ => ∅) m (maps s);
               set_log := set_log s; runs := runs s; trace := trace s |}).

End Map.

(** [agent.run(prompt)] is started. *)
Definition agent_run (who : role) (prompt : json) : M unit :=
  fun s => (tt, {| maps := maps s; set_log := set_log s;
                   runs := runs s ++ [(who, prompt)];
                   trace := trace s ++ [Ran who prompt] |}).

(** ** The class TaskOrchestrator *)

Record TaskOrchestrator : Type := {
  config : Config.AppConfig;
  num_agents : Z;
  task_timeout : Z;
  aggregation_strategy : string;
  agent_progress : loc;
  agent_results : loc;
}.

(** The constructor, from a loaded configuration. *)
Definition new_TaskOrchestrator (cfg : Config.AppConfig) : M TaskOrchestrator :=
  progress <- Map.new ;;
  results <- Map.new ;;
  ret {| config := cfg;
         num_agents := Config.parallel_agents (Config.orchestrator cfg);
         task_timeout := Config.task_timeout (Config.orchestrator cfg);
         aggregation_strategy := Config.aggregation_strategy (Config.orchestrator cfg);
         agent_progress := progress;
         agent_results := results |}.

(** The predefined questions of [decompose_task]. *)
Definition fallbackQuestions (userInput : string) : list json :=
  [ JString ("Research comprehensive information about: " +:+ userInput);
    JString ("Analyze and provide insights about: " +:+ userInput);
    JString ("Find alternative perspectives on: " +:+ userInput);
    JString ("Verify and cross-check facts about: " +:+ userInput) ].

(** The local [generationPrompt] of [decompose_task]. *)
Definition generationPrompt (o : TaskOrchestrator) (userInput : string) (numAgents : Z) : string :=
  let promptTemplate :=
    Config.question_generation_prompt (Config.orchestrator (config o)) in
  JS.replace (JS.replace promptTemplate "{user_input}" userInput)
    "{num_agents}" (JS.String_of_Z numAgents).

(** [decompose_task]: the [try] block returns the parsed array when it is an
    array of [numAgents] elements; a rejected call, a parse error, a value
    that is no array and an array of another length all end in the [catch]
    block. *)
Definition decompose_task (w : world) (o : TaskOrchestrator)
    (userInput : string) (numAgents : Z) : M (list json) :=
  let fallback := JS.slice0 (fallbackQuestions userInput) numAgents in
  agent_run QuestionAgent (JString (generationPrompt o userInput numAgents)) ;;
  match question_agent w (generationPrompt o userInput numAgents) with
  | Resolved response =>
      match JSON_parse w (JS.trim response) with
      | Some (JArray questions) =>
          if decide (Z.of_nat (length questions) = numAgents)
          then ret questions
          else ret fallback
      | _ => ret fallback
      end
  | Rejected _ => ret fallback
  end.

(** [update_agent_progress(agentId, status, result = null)]. *)
Definition update_agent_progress (o : TaskOrchestrator)
    (agentId : Z) (status : string) (result : option string) : M unit :=
  Map.set (agent_progress o) agentId status ;;
  match result with
  | Some r => Map.set (agent_results o) agentId r
  | None => ret tt
  end.

(** [get_progress_status]. *)
Definition get_progress_status (o : TaskOrchestrator) : M loc :=
  Map.copy (agent_progress o).

(** *** One slot: [run_agent_parallel] and the timer *)

(** [run_agent_parallel] up to its [await]: the status is written and the
    agent of the slot is started. *)
Definition run_agent_parallel_start (o : TaskOrchestrator)
    (agentId : Z) (subtask : json) : M unit :=
  update_agent_progress o agentId AgentStatus.PROCESSING None ;;
  agent_run (SlotAgent agentId) subtask.

(** [run_agent_parallel] resumed with the response of the agent;
    [elapsed_ms] is [Date.now() - startTime]. *)
Definition run_agent_parallel_resolved (o : TaskOrchestrator)
    (agentId : Z) (response : string) (elapsed_ms : Z) : M AgentResult :=
  let executionTime := (elapsed_ms # 1000)%Q in
  update_agent_progress o agentId AgentStatus.COMPLETED (Some response) ;;
  ret {| agent_id := agentId; status := success;
         response := response; execution_time := executionTime |}.

(** [run_agent_parallel] resumed in its [catch] block. *)
Definition run_agent_parallel_rejected (o : TaskOrchestrator)
    (agentId : Z) (message : string) : M AgentResult :=
  let errorMessage := "Error: " +:+ message in
  update_agent_progress o agentId ("FAILED: " +:+ message) None ;;
  ret {| agent_id := agentId; status := error;
         response := errorMessage; execution_time := 0%Q |}.

(** The callback given to [setTimeout] for slot [i]. *)
Definition timeout_callback (o : TaskOrchestrator) (i : Z) : M AgentResult :=
  update_agent_progress o i "FAILED: Timeout" None ;;
  ret {| agent_id := i; status := timeout;
         response := "Agent " +:+ JS.String_of_Z (i + 1) +:+ " timed out after "
                     +:+ JS.String_of_Z (task_timeout o) +:+ "s";
         execution_time := inject_Z (task_timeout o) |}.

(** The three promises of one iteration of [subtasks.map]: [None] while
    pending, the value once resolved. *)
Record slot : Type := {
  taskPromise : option AgentResult;
  timeoutPromise : option AgentResult;
  race : option AgentResult;
}.

Definition pending : slot :=
  {| taskPromise := None; timeoutPromise := None; race := None |}.

(** A promise settles once: [Promise.race] keeps the first value. *)
Definition settle (p : option AgentResult) (r : AgentResult) : option AgentResult :=
  match p with
  | Some first => Some first
  | None => Some r
  end.

(** What the event loop runs during and after the dispatch. *)
Inductive event : Type :=
| WorkerResolved (i : nat) (response : string) (elapsed_ms : Z)
| WorkerRejected (i : nat) (message : string)
| TimerFired (i : nat).

Definition event_slot (ev : event) : nat :=
  match ev with
  | WorkerResolved i _ _ => i
  | WorkerRejected i _ => i
  | TimerFired i => i
  end.

(** The store and the promises of the running [orchestrate]. *)
Record dispatch : Type := {
  mem : store;
  slots : list slot;
}.

Definition task_settles (i : nat) (sl : slot) (k : M AgentResult) (d : dispatch) : dispatch :=
  match taskPromise sl with
  | Some _ => d
  | None =>
      let (r, s') := k (mem d) in
      {| mem := s';
         slots := <[i := {| taskPromise := Some r;
                            timeoutPromise := timeoutPromise sl;
                            race := settle (race sl) r |}]> (slots d) |}
  end.

Definition timer_fires (i : nat) (sl : slot) (k : M AgentResult) (d : dispatch) : dispatch :=
  match timeoutPromise sl with
  | Some _ => d
  | None =>
      let (r, s') := k (mem d) in
      {| mem := s';
         slots := <[i := {| taskPromise := taskPromise sl;
                            timeoutPromise := Some r;
                            race := settle (race sl) r |}]> (slots d) |}
  end.

(** The code that an event resumes or calls. *)
Definition callback (o : TaskOrchestrator) (ev : event) : M AgentResult :=
  match ev with
  | WorkerResolved i response elapsed_ms =>
      run_agent_parallel_resolved o (Z.of_nat i) response elapsed_ms
  | WorkerRejected i message =>
      run_agent_parallel_rejected o (Z.of_nat i) message
  | TimerFired i =>
      timeout_callback o (Z.of_nat i)
  end.

(** One macrotask. An event for a slot that was not launched, or for a
    promise that has settled already, does nothing. *)
Definition on_event (o : TaskOrchestrator) (ev : event) (d : dispatch) : dispatch :=
  match slots d !! event_slot ev with
  | None => d
  | Some sl =>
      match ev with
      | TimerFired i => timer_fires i sl (callback o ev) d
      | _ => task_settles (event_slot ev) sl (callback o ev) d
      end
  end.

Definition run_events (o : TaskOrchestrator) (evs : list event) (d : dispatch) : dispatch :=
  foldl (fun d ev => on_event o ev d) d evs.

(** [await Promise.all(agentPromises)]: the controller resumes at the first
    moment every race has settled, with the values in the order of the
    array; the events not yet run are returned. With no event left and a
    race still pending, the controller is still waiting. *)
Fixpoint await_all (o : TaskOrchestrator) (sched : list event) (d : dispatch)
    : option (list AgentResult) * dispatch * list event :=
  match mapM race (slots d) with
  | Some agentResults => (Some agentResults, d, sched)
  | None =>
      match sched with
      | [] => (None, d, [])
      | ev :: rest => await_all o rest (on_event o ev d)
      end
  end.

(** *** Aggregation *)

(** The local [synthesisPrompt] of [_aggregate_consensus]. *)
Definition synthesisPrompt (o : TaskOrchestrator) (responses : list string) : string :=
  let agentResponsesText :=
    foldl String.append ""
      (imap (fun i response =>
               "=== AGENT " +:+ JS.String_of_Z (Z.of_nat i + 1) +:+ " RESPONSE ==="
               +:+ LF +:+ response +:+ LF +:+ LF) responses) in
  let synthesisPromptTemplate :=
    Config.synthesis_prompt (Config.orchestrator (config o)) in
  JS.replace
    (JS.replace synthesisPromptTemplate "{num_responses}"
       (JS.String_of_Z (Z.of_nat (length responses))))
    "{agent_responses}" agentResponsesText.

Definition _aggregate_consensus (w : world) (o : TaskOrchestrator)
    (responses : list string) : M string :=
  match responses with
  | [only] => ret only
  | _ =>
      agent_run SynthesisAgent (JString (synthesisPrompt o responses)) ;;
      match synthesis_agent w (synthesisPrompt o responses) with
      | Resolved text => ret text
      | Rejected _ =>
          ret (JS.join (LF +:+ LF)
                 (imap (fun i resp =>
                          "=== Agent " +:+ JS.String_of_Z (Z.of_nat i + 1)
                          +:+ " Response ===" +:+ LF +:+ resp) responses))
      end
  end.

Definition aggregate_results (w : world) (o : TaskOrchestrator)
    (agentResults : list AgentResult) : M string :=
  let successfulResults := filter (fun r => status r = success) agentResults in
  if decide (length successfulResults = 0%nat) then
    ret "All agents failed to provide results. Please try again."
  else
    let responses := map response successfulResults in
    if String.eqb (aggregation_strategy o) "consensus"
    then _aggregate_consensus w o responses
    else _aggregate_consensus w o responses.

(** *** The controller *)

(** The callback of [subtasks.map], for every subtask in turn: each task
    runs up to its first [await], and its timer is created. *)
Definition launch (o : TaskOrchestrator) (subtasks : list json) : M (list slot) :=
  for_each (fun '(i, subtask) => run_agent_parallel_start o (Z.of_nat i) subtask)
    (imap pair subtasks) ;;
  ret (replicate (length subtasks) pending).

(** [orchestrate] up to [await Promise.all]. *)
Definition orchestrate_begin (w : world) (o : TaskOrchestrator)
    (userInput : string) : M (list slot) :=
  Map.clear (agent_progress o) ;;
  Map.clear (agent_results o) ;;
  update_agent_progress o (-1) AgentStatus.INITIALIZING None ;;
  subtasks <- decompose_task w o userInput (num_agents o) ;;
  for_each (fun i => Map.set (agent_progress o) i AgentStatus.QUEUED)
    (seqZ 0 (num_agents o)) ;;
  launch o subtasks.

(** [orchestrate] after [await Promise.all]: the sorted results, which are
    given to [aggregate_results], and the final string. *)
Definition orchestrate_end (w : world) (o : TaskOrchestrator)
    (agentResults : list AgentResult) : M (list AgentResult * string) :=
  let sorted := JS.sort (fun a b => agent_id a - agent_id b) agentResults in
  update_agent_progress o (-1) AgentStatus.AGGREGATING None ;;
  final <- aggregate_results w o sorted ;;
  ret (sorted, final).

(** What is known of a call of [orchestrate] once a schedule has run. *)
Record run : Type := {
  returned : option string;             (* the string returned, if it has returned *)
  handed : option (list AgentResult);   (* the argument of [aggregate_results] *)
  after : dispatch;                     (* the store and the promises at the end *)
}.

(** A call of [orchestrate] under a schedule: the events up to the moment
    all races have settled run before the controller resumes, the others
    after it. *)
Definition orchestrate (w : world) (o : TaskOrchestrator) (userInput : string)
    (sched : list event) (s : store) : run :=
  let (launched, s1) := orchestrate_begin w o userInput s in
  match await_all o sched {| mem := s1; slots := launched |} with
  | (Some agentResults, d, late) =>
      let '(sorted, final, s2) := orchestrate_end w o agentResults (mem d) in
      {| returned := Some final;
         handed := Some sorted;
         after := run_events o late {| mem := s2; slots := slots d |} |}
  | (None, d, _) =>
      {| returned := None; handed := None; after := d |}
  end.

(** *** The second copy of the class (src/make_it_heavy.ts)

    It differs from src/orchestrator.ts in the aggregation only: the
    sections of the synthesis prompt end in one line feed, the fallback
    joins with one line feed, and the strategy is not looked at. *)

Module Refactored.

Definition synthesisPrompt (o : TaskOrchestrator) (responses : list string) : string :=
  let agentResponsesText :=
    foldl String.append ""
      (imap (fun i response =>
               "=== AGENT " +:+ JS.String_of_Z (Z.of_nat i + 1) +:+ " RESPONSE ==="
               +:+ LF +:+ response +:+ LF) responses) in
  let synthesisPromptTemplate :=
    Config.synthesis_prompt (Config.orchestrator (config o)) in
  JS.replace
    (JS.replace synthesisPromptTemplate "{num_responses}"
       (JS.String_of_Z (Z.of_nat (length responses))))
    "{agent_responses}" agentResponsesText.

Definition _aggregate_consensus (w : world) (o : TaskOrchestrator)
    (responses : list string) : M string :=
  match responses with
  | [only] => ret only
  | _ =>
      agent_run SynthesisAgent (JString (synthesisPrompt o responses)) ;;
      match synthesis_agent w (synthesisPrompt o responses) with
      | Resolved text => ret text
      | Rejected _ =>
          ret (JS.join LF
                 (imap (fun i resp =>
                          "=== Agent " +:+ JS.String_of_Z (Z.of_nat i + 1)
                          +:+ " Response ===" +:+ LF +:+ resp) responses))
      end
  end.

Definition aggregate_results (w : world) (o : TaskOrchestrator)
    (agentResults : list AgentResult) : M string :=
  let successfulResults := filter (fun r => status r = success) agentResults in
  if decide (length successfulResults = 0%nat) then
    ret "All agents failed to provide results. Please try again."
  else
    let responses := map response successfulResults in
    _aggregate_consensus w o responses.

(** [orchestrate] of this copy after [await Promise.all]: the statements
    of src/orchestrator.ts, and the [aggregate_results] of this copy. *)
Definition orchestrate_end (w : world) (o : TaskOrchestrator)
    (agentResults : list AgentResult) : M (list AgentResult * string) :=
  let sorted := JS.sort (fun a b => agent_id a - agent_id b) agentResults in
  update_agent_progress o (-1) AgentStatus.AGGREGATING None ;;
  final <- aggregate_results w o sorted ;;
  ret (sorted, final).

(** A call of [orchestrate] of this copy under a schedule. Up to
    [await Promise.all] the method and what it calls are those of
    src/orchestrator.ts, statement for statement. *)
Definition orchestrate (w : world) (o : TaskOrchestrator) (userInput : string)
    (sched : list event) (s : store) : run :=
  let (launched, s1) := orchestrate_begin w o userInput s in
  match await_all o sched {| mem := s1; slots := launched |} with
  | (Some agentResults, d, late) =>
      let '(sorted, final, s2) := orchestrate_end w o agentResults (mem d) in
      {| returned := Some final;
         handed := Some sorted;
         after := run_events o late {| mem := s2; slots := slots d |} |}
  | (None, d, _) =>
      {| returned := None; handed := None; after := d |}
  end.

End Refactored.

(** ** Notions used in the statements *)

(** The successful responses of a sequence of outcomes, in their order. *)
Definition successful_responses (outcomes : list AgentResult) : list string :=
  map response (filter (fun r => status r = success) outcomes).

(** The labelled responses, a blank line between two of them. *)
Definition labelled_concatenation (responses : list string) : string :=
  JS.join (LF +:+ LF)
    (imap (fun k resp => "=== Agent " +:+ pretty (Z.of_nat k + 1) +:+ " Response ==="
                         +:+ LF +:+ resp) responses).

(** The first event of slot [i] in a schedule. *)
Fixpoint first_event (i : nat) (sched : list event) : option event :=
  match sched with
  | [] => None
  | ev :: rest => if decide (event_slot ev = i) then Some ev else first_event i rest
  end.

(** The outcome that the callback of an event produces. *)
Definition event_outcome (o : TaskOrchestrator) (ev : event) : AgentResult :=
  fst (callback o ev empty_store).

(** The status that the callback of an event writes for its slot. *)
Definition event_status (ev : event) : string :=
  match ev with
  | WorkerResolved _ _ _ => "COMPLETED"
  | WorkerRejected _ message => "FAILED: " +:+ message
  | TimerFired _ => "FAILED: Timeout"
  end.

(** The promise that an event settles is still pending. *)
Definition still_pending (ev : event) (sl : slot) : Prop :=
  match ev with
  | TimerFired _ => timeoutPromise sl = None
  | _ => taskPromise sl = None
  end.

(** The status of a slot in the live progress map. *)
Definition progress_of (o : TaskOrchestrator) (s : store) (agentId : Z) : option string :=
  Map.content s (agent_progress o) !! agentId.

(** The outcome recorded for a slot: the value of its race. *)
Definition outcome_of (d : dispatch) (i : nat) : option AgentResult :=
  sl ← slots d !! i; race sl.

(** What an event does to the promises of its slot. *)
Definition slot_step (o : TaskOrchestrator) (ev : event) (sl : slot) : slot :=
  match ev with
  | TimerFired _ =>
      match timeoutPromise sl with
      | Some _ => sl
      | None => {| taskPromise := taskPromise sl;
                   timeoutPromise := Some (event_outcome o ev);
                   race := settle (race sl) (event_outcome o ev) |}
      end
  | _ =>
      match taskPromise sl with
      | Some _ => sl
      | None => {| taskPromise := Some (event_outcome o ev);
                   timeoutPromise := timeoutPromise sl;
                   race := settle (race sl) (event_outcome o ev) |}
      end
  end.

(** A race is pending only while both of its promises are. *)
Definition coherent (sl : slot) : Prop :=
  race sl = None -> taskPromise sl = None /\ timeoutPromise sl = None.

(** Once the race of a slot has settled, no later event changes the status
    or the outcome recorded for that slot. *)
Definition first_settlement_durable (o : TaskOrchestrator) (d : dispatch) : Prop :=
  forall (i : nat) (ev : event),
    is_Some (outcome_of d i) ->
    progress_of o (mem (on_event o ev d)) (Z.of_nat i) = progress_of o (mem d) (Z.of_nat i)
    /\ outcome_of (on_event o ev d) i = outcome_of d i.

(** The statuses written to the sentinel slot, in the order of the writes. *)
Definition sentinel_statuses (o : TaskOrchestrator) (log : list (loc * Z * string)) : list string :=
  omap (fun '(m, k, v) =>
          if decide (m = agent_progress o /\ k = -1) then Some v else None) log.

(** What a reader may do to a Map it holds. *)
Inductive Map_op : Type :=
| OpSet (k : Z) (v : string)
| OpDelete (k : Z)
| OpClear.

Definition apply_op (m : loc) (op : Map_op) : M unit :=
  match op with
  | OpSet k v => Map.set m k v
  | OpDelete k => Map.delete m k
  | OpClear => Map.clear m
  end.

(** The timeout outcome of slot [i]. *)
Definition timeout_outcome (o : TaskOrchestrator) (i : nat) : AgentResult :=
  {| agent_id := Z.of_nat i; status := timeout;
     response := "Agent " +:+ pretty (Z.of_nat i + 1) +:+ " timed out after "
                 +:+ pretty (task_timeout o) +:+ "s";
     execution_time := inject_Z (task_timeout o) |}.

(** The subtasks that [decompose_task] returns. *)
Definition subtasks_of (w : world) (o : TaskOrchestrator) (userInput : string) : list json :=
  fst (decompose_task w o userInput (num_agents o) empty_store).

(** The fallback of [decompose_task], as a function of its two arguments. *)
Definition fallback_subtasks (userInput : string) (n : Z) : list json :=
  JS.slice0 (fallbackQuestions userInput) n.

(** The Maps of the orchestrator have been allocated. *)
Definition allocated (o : TaskOrchestrator) (s : store) : Prop :=
  (agent_progress o < length (maps s))%nat /\ (agent_results o < length (maps s))%nat.

(** From [s] to [s'] the log of writes grew, and the writes to the sentinel
    slot among the new ones carry [statuses], in this order. *)
Definition sentinel_written (o : TaskOrchestrator) (s s' : store) (statuses : list string) : Prop :=
  exists ext, set_log s' = set_log s ++ ext /\ sentinel_statuses o ext = statuses.

(** A write for a slot of the dispatch, in either Map. *)
Definition slot_write (e : effect) : Prop :=
  match e with
  | Wrote _ k _ => 0 <= k
  | Ran _ _ => False
  end.

(** What a call does while it decomposes and dispatches: it writes for
    the slots, and it starts the question agent and the agents of the
    slots. *)
Definition dispatch_effect (e : effect) : Prop :=
  match e with
  | Wrote _ k _ => 0 <= k
  | Ran SynthesisAgent _ => False
  | Ran _ _ => True
  end.

(** What is done once the controller aggregates: the synthesis agent is
    started, and callbacks that come late write for their slots. *)
Definition aggregation_effect (e : effect) : Prop :=
  match e with
  | Wrote _ k _ => 0 <= k
  | Ran SynthesisAgent _ => True
  | Ran _ _ => False
  end.

(** ** Concrete runs *)

Module Demo.

Definition cfg (n t : Z) : Config.AppConfig :=
  {| Config.openrouter := {| Config.model := "vendor/model"; Config.api_key := "key" |};
     Config.orchestrator :=
       {| Config.parallel_agents := n;
          Config.task_timeout := t;
          Config.aggregation_strategy := "consensus";
          Config.question_generation_prompt :=
            "generate a list of questions: {user_input} ({num_agents})";
          Config.synthesis_prompt :=
            "Synthesize the following agent responses ({num_responses}): {agent_responses}" |} |}.

(** A world in which the question agent and the synthesis agent fail. *)
Definition down : world :=
  {| JSON_parse := fun _ => None;
     question_agent := fun _ => Rejected "connection refused";
     synthesis_agent := fun _ => Rejected "connection refused" |}.

(** A world in which the question agent answers prose, which does not
    parse, and the synthesis agent answers. *)
Definition up : world :=
  {| JSON_parse := fun _ => None;
     question_agent := fun _ => Resolved "Here are some questions.";
     synthesis_agent := fun _ => Resolved "synthesis" |}.

(** Three agents, a timeout of 5 seconds: the agent of slot 1 answers
    after its timer has fired. *)
Definition one_slow : list event :=
  [WorkerResolved 2 "c" 1000; WorkerResolved 0 "a" 2000;
   TimerFired 0; TimerFired 1; TimerFired 2; WorkerResolved 1 "b" 9000].

(** Two agents that both fail. *)
Definition both_fail : list event :=
  [WorkerRejected 1 "rate limited"; WorkerRejected 0 "rate limited"].

(** The orchestrator built from [cfg n t] in the empty store, and the
    store after its construction. *)
Definition built (n t : Z) : TaskOrchestrator * store :=
  new_TaskOrchestrator (cfg n t) empty_store.

Definition orch (n t : Z) : TaskOrchestrator := fst (built n t).
Definition start (n t : Z) : store := snd (built n t).

(** One agent, a timeout of 300 seconds: the agent answers after 1.2
    seconds and [orchestrate] returns. *)
Definition answered : dispatch :=
  after (orchestrate down (orch 1 300) "q" [WorkerResolved 0 "a" 1200] (start 1 300)).

(** Two agents, a timeout of 5 seconds: the first agent answers after
    1.2 seconds, the second one after 7 seconds, when both timers have
    fired. *)
Definition slow_second : list event :=
  [WorkerResolved 0 "a" 1200; TimerFired 0; TimerFired 1; WorkerResolved 1 "late" 7000].

(** Five agents, a question agent that fails: the four agents that are
    started all answer. *)
Definition four_answers : list event :=
  [WorkerResolved 2 "c" 1100; WorkerResolved 0 "a" 1200;
   WorkerResolved 3 "d" 1300; WorkerResolved 1 "b" 1400].

(** The outcome and the promises of slot 0 in [answered]. *)
Definition answered_outcome : AgentResult :=
  {| agent_id := 0; status := success; response := "a";
     execution_time := (1200 # 1000)%Q |}.

Definition answered_slot : slot :=
  {| taskPromise := Some answered_outcome; timeoutPromise := None;
     race := Some answered_outcome |}.

(** One agent, a timeout of 1 second: the timer fires and [orchestrate]
    returns; the agent has not answered yet. *)
Definition expired : dispatch :=
  after (orchestrate down (orch 1 1) "q" [TimerFired 0] (start 1 1)).

Definition timed_out : AgentResult :=
  {| agent_id := 0; status := timeout;
     response := "Agent 1 timed out after 5s"; execution_time := 5%Q |}.

Definition failed : AgentResult :=
  {| agent_id := 2; status := error; response := "Error: x"; execution_time := 0%Q |}.

Definition answer (text : string) : AgentResult :=
  {| agent_id := 1; status := success; response := text; execution_time := 1%Q |}.

Definition two_successes : list AgentResult :=
  [ {| agent_id := 0; status := success; response := "a"; execution_time := 1%Q |};
    {| agent_id := 1; status := error; response := "Error: x"; execution_time := 0%Q |};
    {| agent_id := 2; status := success; response := "b"; execution_time := 2%Q |} ].

End Demo.

(** ** Further notions *)

(** The entry of a slot in the Map [agent_results]. *)
Definition result_of (o : TaskOrchestrator) (s : store) (agentId : Z) : option string :=
  Map.content s (agent_results o) !! agentId.

(** Two events belong to the same branch of a race: both to the agent, or
    both to the timer. *)
Definition same_branch (ev ev' : event) : Prop :=
  match ev, ev' with
  | TimerFired _, TimerFired _ => True
  | TimerFired _, _ => False
  | _, TimerFired _ => False
  | _, _ => True
  end.

(** In a schedule, the slot of [ev] has events of the branch of [ev]
    only. *)
Definition other_branch_silent (ev : event) (sched : list event) : Prop :=
  forall ev', In ev' sched -> event_slot ev' = event_slot ev -> same_branch ev ev'.

(** The calls of [agent.run] that [subtasks.map] makes, in their order. *)
Definition slot_runs (subtasks : list json) : list (role * json) :=
  imap (fun i subtask => (SlotAgent (Z.of_nat i), subtask)) subtasks.

(** The slot of [ev] has had this event and no other that took effect: its
    promises are those that [ev] leaves, and its status the one that the
    callback of [ev] writes. *)
Definition settled_by (o : TaskOrchestrator) (ev : event) (d : dispatch) : Prop :=
  slots d !! event_slot ev = Some (slot_step o ev pending)
  /\ progress_of o (mem d) (Z.of_nat (event_slot ev)) = Some (event_status ev).

Module Demo2.

(** A world in which the question agent answers a list of two questions
    and the synthesis agent answers. *)
Definition listing : world :=
  {| JSON_parse := fun _ => Some (JArray [JString "first"; JString "second"]);
     question_agent := fun _ => Resolved "a list of two questions";
     synthesis_agent := fun _ => Resolved "synthesis" |}.

(** Two agents, a timeout of 5 seconds: both agents answer, then both
    timers fire. *)
Definition both_answer : list event :=
  [WorkerResolved 1 "b" 1500; WorkerResolved 0 "a" 2500; TimerFired 0; TimerFired 1].

End Demo2.

(** ** A call among the callbacks of earlier calls

    [orchestrate] never clears the timers it creates, and the agent of a
    slot whose timer won the race is not stopped. The callbacks of a call
    therefore outlive it, and run during a later call on the same
    object. *)

(** A macrotask of the event loop while a call runs: an event of this
    call, or a callback that an earlier call has left. *)
Inductive macrotask : Type :=
| Own (ev : event)
| Earlier (ev : event).

(** A callback of an earlier call runs the same code on the same Maps;
    the promise that it settles is one of the earlier call. *)
Definition on_macrotask (o : TaskOrchestrator) (t : macrotask) (d : dispatch) : dispatch :=
  match t with
  | Own ev => on_event o ev d
  | Earlier ev => {| mem := snd (callback o ev (mem d)); slots := slots d |}
  end.

Definition run_macrotasks (o : TaskOrchestrator) (ts : list macrotask) (d : dispatch)
    : dispatch :=
  foldl (fun d t => on_macrotask o t d) d ts.

(** [await Promise.all(agentPromises)] among such macrotasks. *)
Fixpoint await_all_among (o : TaskOrchestrator) (ts : list macrotask) (d : dispatch)
    : option (list AgentResult) * dispatch * list macrotask :=
  match mapM race (slots d) with
  | Some agentResults => (Some agentResults, d, ts)
  | None =>
      match ts with
      | [] => (None, d, [])
      | t :: rest => await_all_among o rest (on_macrotask o t d)
      end
  end.

(** A call of [orchestrate] (src/orchestrator.ts) while callbacks of
    earlier calls may run. *)
Definition orchestrate_among (w : world) (o : TaskOrchestrator) (userInput : string)
    (ts : list macrotask) (s : store) : run :=
  let (launched, s1) := orchestrate_begin w o userInput s in
  match await_all_among o ts {| mem := s1; slots := launched |} with
  | (Some agentResults, d, late) =>
      let '(sorted, final, s2) := orchestrate_end w o agentResults (mem d) in
      {| returned := Some final;
         handed := Some sorted;
         after := run_macrotasks o late {| mem := s2; slots := slots d |} |}
  | (None, d, _) =>
      {| returned := None; handed := None; after := d |}
  end.

(** The events of the running call among the macrotasks. *)
Definition own_events (ts : list macrotask) : list event :=
  omap (fun t => match t with Own ev => Some ev | Earlier _ => None end) ts.

(** No callback of an earlier call runs for slot [i]. *)
Definition earlier_silent (i : nat) (ts : list macrotask) : Prop :=
  Forall (fun t => match t with Own _ => True | Earlier ev => event_slot ev <> i end) ts.

Module Demo4.

(** Three agents of which the second never answers, while the timer of
    slot 0 of an earlier call and an answer for slot 2 of an earlier call
    come in. *)
Definition second_silent : list macrotask :=
  [Own (WorkerResolved 0 "a" 1500); Earlier (TimerFired 0); Own (WorkerRejected 2 "quota");
   Own (TimerFired 0); Earlier (WorkerResolved 2 "old" 900); Own (TimerFired 1);
   Own (TimerFired 2)].

(** Two agents that answer at once, and then the timer of slot 0 of an
    earlier call. *)
Definition old_timer : list macrotask :=
  [Own (WorkerResolved 0 "a" 1500); Own (WorkerResolved 1 "b" 1700); Earlier (TimerFired 0)].

End Demo4.

(** ** The command-line interface (src/make_it_heavy.ts)

    [OrchestratorCLI.format_time] and [UI.formatTime] are the same function
    of a number of seconds, which is a quotient of milliseconds by 1000. *)

Module Number.

(** The integer part of a number, towards zero. *)
Definition trunc (x : Q) : Z := Z.quot (Qnum x) (Zpos (Qden x)).

(** [a % b]: the remainder has the sign of [a]. *)
Definition rem (a b : Q) : Q := (a - b * inject_Z (trunc (a / b)))%Q.

(** [Math.floor]. *)
Definition floor (x : Q) : Z := Qfloor x.

End Number.

Definition format_time (seconds : Q) : string :=
  if Qlt_le_dec seconds 60 then
    pretty (Number.floor seconds) +:+ "S"
  else if Qlt_le_dec seconds 3600 then
    let minutes := Number.floor (seconds / 60) in
    let secs := Number.floor (Number.rem seconds 60) in
    pretty minutes +:+ "M" +:+ pretty secs +:+ "S"
  else
    let hours := Number.floor (seconds / 3600) in
    let minutes := Number.floor (Number.rem seconds 3600 / 60) in
    pretty hours +:+ "H" +:+ pretty minutes +:+ "M".

(** [x || dflt] for an optional string: an absent and an empty string both
    give the default. *)
Definition or_default (x : option string) (dflt : string) : string :=
  match x with
  | Some EmptyString => dflt
  | Some v => v
  | None => dflt
  end.

(** The two colours taken from the [chalk] library; what they wrap around
    the text depends on the terminal. *)
Record Chalk : Type := {
  orange : string -> string;   (* chalk.hex('#FFA500') *)
  red : string -> string;      (* chalk.red *)
}.

(** [String.prototype.repeat]. *)
Fixpoint repeat_string (s : string) (n : nat) : string :=
  match n with
  | O => EmptyString
  | S n' => s +:+ repeat_string s n'
  end.

(** [create_progress_bar] of [OrchestratorCLI], which is [createProgressBar]
    of [UI]: the cases of the [switch] in their order, then the default
    case. *)
Definition create_progress_bar (chalk : Chalk) (status : string) : string :=
  let barLength := 70%nat in
  if String.eqb status "QUEUED" then
    "○ " +:+ repeat_string "·" barLength
  else if String.eqb status "INITIALIZING..." then
    orange chalk "◐" +:+ " " +:+ repeat_string "·" barLength
  else if String.eqb status "PROCESSING..." then
    let processingBar :=
      orange chalk (repeat_string ":" 10) +:+ repeat_string "·" (barLength - 10) in
    orange chalk "●" +:+ " " +:+ processingBar
  else if String.eqb status "COMPLETED" then
    orange chalk "●" +:+ " " +:+ orange chalk (repeat_string ":" barLength)
  else if String.prefix "FAILED" status then
    red chalk "✗" +:+ " " +:+ red chalk (repeat_string "×" barLength)
  else
    orange chalk "◐" +:+ " " +:+ repeat_string "·" barLength.

(** ** The HTTP endpoint (src/make_it_heavy.ts, [EndpointHandler]) *)

Module Endpoint.

Inductive Role : Type := system | user | assistant.

#[global] Instance Role_eq_dec : EqDecision Role.
Proof. solve_decision. Defined.

Record OpenAIMessage : Type := {
  role : Role;
  content : string;
}.

(** A request body of the declared type; [messages] is [None] when the
    member is absent. *)
Record OpenAIRequest : Type := {
  messages : option (list OpenAIMessage);
  model : option string;
}.

Module Response.

Record Choice : Type := {
  index : Z;
  message : OpenAIMessage;
  finish_reason : string;
}.

Record OpenAIResponse : Type := {
  id : string;
  object : string;
  created : Z;
  model : string;
  choices : list Choice;
}.

End Response.

(** [extractUserInput]: the content of the last message of role [user];
    [None] is [null]. *)
Definition extractUserInput (request : OpenAIRequest) : option string :=
  match messages request with
  | None => None
  | Some [] => None
  | Some msgs =>
      match last (filter (fun m => role m = user) msgs) with
      | Some m => Some (content m)
      | None => None
      end
  end.

(** What the handler takes from outside: how the body parses ([inl] is the
    message of the error that [JSON.parse] throws; a body that parses has
    the declared type [OpenAIRequest]), [randomUUID()] and [Date.now()]. *)
Record env : Type := {
  parse_body : string -> string + OpenAIRequest;
  randomUUID : string;
  Date_now : Z;
}.

Definition formatOpenAIResponse (e : env) (o : TaskOrchestrator) (content : string)
    : Response.OpenAIResponse :=
  let model := Config.model (Config.openrouter (config o)) in
  {| Response.id := "chatcmpl-" +:+ randomUUID e;
     Response.object := "chat.completion";
     Response.created := Date_now e / 1000;
     Response.model := "orchestrator(" +:+ model +:+ ")";
     Response.choices :=
       [ {| Response.index := 0;
            Response.message := {| role := assistant; content := content |};
            Response.finish_reason := "stop" |} ] |}.

(** An incoming request: [body] is how [getRequestBody] settles. *)
Record IncomingMessage : Type := {
  method : string;
  url : string;
  body : reply;
}.

(** The object given to [sendJSON], before [JSON.stringify]. *)
Inductive payload : Type :=
| NoPayload
| ErrorPayload (message : string) (type : string)
| Completion (response : Response.OpenAIResponse).

Record ServerResponse : Type := {
  statusCode : Z;
  headers : list (string * string);
  sent : payload;
}.

Definition sendJSON (statusCode : Z) (p : payload) : ServerResponse :=
  {| statusCode := statusCode;
     headers := [("Content-Type", "application/json");
                 ("Access-Control-Allow-Origin", "*")];
     sent := p |}.

Definition sendError (statusCode : Z) (message : string) : ServerResponse :=
  sendJSON statusCode (ErrorPayload message "invalid_request_error").

(** [handleRequest], with the schedule under which [orchestrate] runs:
    the response written, if one has been written when the schedule ends,
    and the store. The handler holds an instance of the class of
    src/make_it_heavy.ts (it reads [config.app] of it), so the
    [orchestrate] it calls is the one of that copy. *)
Definition handleRequest (e : env) (w : world) (o : TaskOrchestrator)
    (req : IncomingMessage) (sched : list event) (s : store)
    : option ServerResponse * store :=
  if String.eqb (method req) "OPTIONS" then
    (Some {| statusCode := 204;
             headers := [("Access-Control-Allow-Origin", "*");
                         ("Access-Control-Allow-Methods", "POST, OPTIONS");
                         ("Access-Control-Allow-Headers", "Content-Type, Authorization")];
             sent := NoPayload |}, s)
  else if String.eqb (url req) "/v1/chat/completions" && String.eqb (method req) "POST" then
    match body req with
    | Rejected message => (Some (sendError 500 ("Internal Server Error: " +:+ message)), s)
    | Resolved body =>
        match parse_body e body with
        | inl message => (Some (sendError 500 ("Internal Server Error: " +:+ message)), s)
        | inr openAIRequest =>
            match extractUserInput openAIRequest with
            | None | Some EmptyString =>
                (Some (sendError 400 "No valid user message found in request body."), s)
            | Some userInput =>
                let r := Refactored.orchestrate w o userInput sched s in
                match returned r with
                | Some result =>
                    (Some (sendJSON 200 (Completion (formatOpenAIResponse e o result))),
                     mem (after r))
                | None => (None, mem (after r))
                end
            end
        end
    end
  else
    (Some (sendError 404 "Not Found. Please POST to /v1/chat/completions"), s).

End Endpoint.

(** ** Loading the configuration (src/unnamed/part_000, [loadConfig]) *)

Module Loader.

(** A value returned, or an [Error] thrown with its message. *)
Inductive outcome (A : Type) : Type :=
| Returned (a : A)
| Thrown (message : string).

Arguments Returned {A} a.
Arguments Thrown {A} message.

Inductive Mode : Type := cli | endpoint.

Record EndpointSettings : Type := {
  port : Z;
  host : string;
}.

Record AppSettings : Type := {
  mode : Mode;
  endpoint_settings : EndpointSettings;   (* the member [endpoint] *)
}.

Record AppConfig : Type := {
  app : AppSettings;
  openrouter : Config.OpenRouterConfig;
  orchestrator : Config.OrchestratorConfig;
}.

(** [Partial<AppConfig>] as [yaml.load] gives it: every member may be
    absent. *)
Module Partial.

Record EndpointSettings : Type := {
  port : option Z;
  host : option string;
}.

Record AppSettings : Type := {
  mode : option Mode;
  endpoint_settings : option EndpointSettings;
}.

Record AppConfig : Type := {
  app : option AppSettings;
  openrouter : option Config.OpenRouterConfig;
  orchestrator : option Config.OrchestratorConfig;
}.

End Partial.

(** [x?.member]. *)
Definition chain {A B} (x : option A) (member : A -> option B) : option B :=
  match x with
  | Some a => member a
  | None => None
  end.

(** [x ?? dflt]. *)
Definition nullish {A} (x : option A) (dflt : A) : A :=
  match x with
  | Some a => a
  | None => dflt
  end.

Definition generic_message : string :=
  "Could not load or validate configuration. Please ensure config.yaml exists and is correctly formatted.".

(** The [try] block of [loadConfig]. [file] is what [fs.readFileSync]
    gives; [yaml_load] gives [Returned None] for a document that is
    [undefined] or [null], on which [config.app] throws. *)
Definition loadConfig_try (file : outcome string)
    (yaml_load : string -> outcome (option Partial.AppConfig)) : outcome AppConfig :=
  match file with
  | Thrown message => Thrown message
  | Returned fileContents =>
      match yaml_load fileContents with
      | Thrown message => Thrown message
      | Returned None => Thrown "Cannot read properties of undefined (reading 'app')"
      | Returned (Some config) =>
          let mode := nullish (chain (Partial.app config) Partial.mode) cli in
          let port :=
            nullish (chain (chain (Partial.app config) Partial.endpoint_settings)
                       Partial.port) 8080 in
          let host :=
            nullish (chain (chain (Partial.app config) Partial.endpoint_settings)
                       Partial.host) "127.0.0.1" in
          match Partial.orchestrator config, Partial.openrouter config with
          | Some orchestrator, Some openrouter =>
              Returned {| app := {| mode := mode;
                                    endpoint_settings := {| port := port; host := host |} |};
                          openrouter := openrouter;
                          orchestrator := orchestrator |}
          | _, _ =>
              Thrown "'orchestrator' or 'openrouter' section is missing in config.yaml"
          end
      end
  end.

(** [loadConfig]: whatever is thrown in the [try] block is caught, and a
    new [Error] is thrown. *)
Definition loadConfig (file : outcome string)
    (yaml_load : string -> outcome (option Partial.AppConfig)) : outcome AppConfig :=
  match loadConfig_try file yaml_load with
  | Returned fullConfig => Returned fullConfig
  | Thrown _ => Thrown generic_message
  end.

(** The document that states every setting of a configuration. *)
Definition complete (c : AppConfig) : Partial.AppConfig :=
  {| Partial.app :=
       Some {| Partial.mode := Some (mode (app c));
               Partial.endpoint_settings :=
                 Some {| Partial.port := Some (port (endpoint_settings (app c)));
                         Partial.host := Some (host (endpoint_settings (app c))) |} |};
     Partial.openrouter := Some (openrouter c);
     Partial.orchestrator := Some (orchestrator c) |}.

End Loader.

Module Demo3.

Import Endpoint.

(** A conversation whose last user message is followed by an assistant
    message. *)
Definition conversation : list OpenAIMessage :=
  [ {| role := system; content := "be brief" |};
    {| role := user; content := "first question" |};
    {| role := assistant; content := "an answer" |};
    {| role := user; content := "second question" |};
    {| role := assistant; content := "draft" |} ].

(** The same conversation with an empty last user message. *)
Definition emptied : list OpenAIMessage :=
  [ {| role := user; content := "first question" |};
    {| role := assistant; content := "an answer" |};
    {| role := user; content := "" |} ].

(** An environment in which the body "ask" parses to [conversation], the
    body "empty" to [emptied], and any other body does not parse. *)
Definition e : env :=
  {| parse_body := fun body =>
       if String.eqb body "ask" then inr {| messages := Some conversation; model := None |}
       else if String.eqb body "empty" then inr {| messages := Some emptied; model := None |}
       else inl "Unexpected token";
     randomUUID := "0000";
     Date_now := 1700000000123 |}.

Definition post (body : string) : IncomingMessage :=
  {| method := "POST"; url := "/v1/chat/completions"; body := Resolved body |}.

Definition full : Loader.AppConfig :=
  {| Loader.app := {| Loader.mode := Loader.endpoint;
                      Loader.endpoint_settings :=
                        {| Loader.port := 9000; Loader.host := "0.0.0.0" |} |};
     Loader.openrouter := Config.openrouter (Demo.cfg 4 300);
     Loader.orchestrator := Config.orchestrator (Demo.cfg 4 300) |}.

Definition plain : Chalk := {| orange := fun text => text; red := fun text => text |}.

(** The answers "a" and "b" under their labels, one line feed between
    the lines. *)
Definition labelled : string :=
  "=== Agent 1 Response ===" +:+ LF +:+ "a" +:+ LF
  +:+ "=== Agent 2 Response ===" +:+ LF +:+ "b".

End Demo3.

(** ** The name shown by the command-line interface

    The constructors of [OrchestratorCLI] (src/make_it_heavy.ts) and of
    [CliHandler] (src/src/handlers/cli_handler.ts) compute the same name
    from [config.openrouter.model]. *)

Module CLI.

(** [str.split(sep)] for a separator of one character. *)
Fixpoint split (sep : ascii) (str : string) : list string :=
  match str with
  | EmptyString => [EmptyString]
  | String c rest =>
      if Ascii.eqb c sep then EmptyString :: split sep rest
      else match split sep rest with
           | piece :: pieces => String c piece :: pieces
           | [] => [String c EmptyString]
           end
  end.

(** [str.includes(c)] for one character. *)
Fixpoint includes (c : ascii) (str : string) : bool :=
  match str with
  | EmptyString => false
  | String x rest => Ascii.eqb x c || includes c rest
  end.

(** [arr.pop()!] as a value: the last element. *)
Definition pop (arr : list string) : string := List.last arr EmptyString.

(** The local [clean_name] of the constructor. *)
Definition clean_name (model_full : string) : string :=
  let model_name :=
    if includes "/" model_full then pop (split "/" model_full) else model_full in
  let model_parts := split "-" model_name in
  if (3 <=? length model_parts)%nat
  then JS.join "-" (JS.slice0 model_parts 3)
  else model_name.

(** [model_display]; [toUpperCase] is the one of the runtime. *)
Definition model_display (toUpperCase : string -> string) (model_full : string) : string :=
  toUpperCase (clean_name model_full) +:+ " HEAVY".


End CLI.

(** * Properties *)

(** ** The runtime *)

Example slice0_short : JS.slice0 [1; 2; 3; 4] 6 = [1; 2; 3; 4].
Proof. reflexivity. Qed.

Example slice0_negative : JS.slice0 [1; 2; 3; 4] (-1) = [1; 2; 3].
Proof. reflexivity. Qed.

Example replace_first :
  JS.replace "ask {n} of {n}" "{n}" "4" = "ask 4 of {n}".
Proof. reflexivity. Qed.

Example replace_dollar :
  JS.replace "Q: {user_input}." "{user_input}" "a$$b$&c$1" = "Q: a$b{user_input}c$1.".
Proof. reflexivity. Qed.

Example trim_both : JS.trim ("  [1] " +:+ LF) = "[1]".
Proof. reflexivity. Qed.

Example sort_stable :
  JS.sort (fun a b => fst a - fst b) [(2, "x"); (1, "y"); (2, "z"); (0, "w")]
  = [(0, "w"); (1, "y"); (2, "x"); (2, "z")].
Proof. reflexivity. Qed.

Lemma slice0_length {A} (arr : list A) (e : Z) :
  0 <= e ->
  length (JS.slice0 arr e) = Z.to_nat (Z.min e (Z.of_nat (length arr))).
Proof.
  intros He. unfold JS.slice0.
  destruct (Z.ltb_spec e 0) as [Hlt | _]; [lia |].
  rewrite length_take. lia.
Qed.

Lemma slice0_zero {A} (arr : list A) : JS.slice0 arr 0 = [].
Proof. unfold JS.slice0. simpl. destruct arr; reflexivity. Qed.

(** Results whose ids count up from [k] are in sorted order already, and
    the sort leaves them in place. *)
Lemma sort_counting_up (results : list AgentResult) :
  forall k : Z,
    (forall (i : nat) r, results !! i = Some r -> agent_id r = k + Z.of_nat i) ->
    JS.sort (fun a b => agent_id a - agent_id b) results = results.
Proof.
  induction results as [| x rest IH]; intros k Hids; [reflexivity |].
  unfold JS.sort in *. simpl.
  rewrite (IH (k + 1)).
  - destruct rest as [| y rest']; [reflexivity |]. simpl.
    pose proof (Hids 0%nat x eq_refl) as Hx.
    pose proof (Hids 1%nat y eq_refl) as Hy.
    destruct (Z.leb_spec (agent_id x - agent_id y) 0); [reflexivity | lia].
  - intros i r Hi. rewrite (Hids (S i) r Hi). lia.
Qed.

(** ** Decomposition *)

Lemma decompose_task_result w o userInput n s :
  fst (decompose_task w o userInput n s) = fst (decompose_task w o userInput n empty_store).
Proof.
  unfold decompose_task, bind, agent_run, ret.
  destruct (question_agent w _) as [resp | msg]; [| reflexivity].
  destruct (JSON_parse w _) as [[| | | | qs |] |]; try reflexivity.
  destruct (decide _); reflexivity.
Qed.

(** The only effect of [decompose_task] is the one call of the question
    agent. *)
Lemma decompose_task_effect w o userInput n s :
  snd (decompose_task w o userInput n s)
  = {| maps := maps s; set_log := set_log s;
       runs := runs s ++ [(QuestionAgent, JString (generationPrompt o userInput n))];
       trace := trace s ++ [Ran QuestionAgent (JString (generationPrompt o userInput n))] |}.
Proof.
  unfold decompose_task, bind, agent_run, ret.
  destruct (question_agent w _) as [resp | msg]; [| reflexivity].
  destruct (JSON_parse w _) as [[| | | | qs |] |]; try reflexivity.
  destruct (decide _); reflexivity.
Qed.

(** Either the parsed array, which has [n] elements, or the fallback. *)
Lemma decompose_task_cases w o userInput n s :
  let subtasks := fst (decompose_task w o userInput n s) in
  Z.of_nat (length subtasks) = n \/ subtasks = fallback_subtasks userInput n.
Proof.
  unfold decompose_task, bind, agent_run, ret, fallback_subtasks. simpl.
  destruct (question_agent w _) as [resp | msg]; [| by right].
  destruct (JSON_parse w _) as [[| | | | qs |] |]; try by right.
  destruct (decide _); [by left | by right].
Qed.

Lemma fallback_subtasks_length userInput n :
  0 <= n -> length (fallback_subtasks userInput n) = Z.to_nat (Z.min n 4).
Proof. intros Hn. unfold fallback_subtasks. by rewrite slice0_length. Qed.

(** Up to four agents, [decompose_task] returns exactly [n] subtasks,
    whatever the question agent answers. *)
Lemma decompose_task_length_upto4 w o userInput n s :
  0 <= n <= 4 ->
  Z.of_nat (length (fst (decompose_task w o userInput n s))) = n.
Proof.
  intros Hn. destruct (decompose_task_cases w o userInput n s) as [H | H]; [done |].
  rewrite H, fallback_subtasks_length by lia. lia.
Qed.

(** An answer that parses to an array of [n] elements is returned as it
    is. *)
Lemma decompose_task_accepts w o userInput n s resp questions :
  question_agent w (generationPrompt o userInput n) = Resolved resp ->
  JSON_parse w (JS.trim resp) = Some (JArray questions) ->
  Z.of_nat (length questions) = n ->
  fst (decompose_task w o userInput n s) = questions.
Proof.
  intros Hresp Hparse Hlen. unfold decompose_task, bind, agent_run, ret.
  rewrite Hresp, Hparse. by rewrite decide_True.
Qed.

(** A failed call, a parse error and an array of another length all give
    the fallback, which depends on [userInput] and [n] only; the run log
    shows the question agent and nothing else. *)
Lemma decompose_task_falls_back w o userInput n s :
  match question_agent w (generationPrompt o userInput n) with
  | Rejected _ => True
  | Resolved resp =>
      match JSON_parse w (JS.trim resp) with
      | Some (JArray qs) => Z.of_nat (length qs) <> n
      | _ => True
      end
  end ->
  decompose_task w o userInput n s
  = (fallback_subtasks userInput n,
     {| maps := maps s; set_log := set_log s;
        runs := runs s ++ [(QuestionAgent, JString (generationPrompt o userInput n))];
        trace := trace s ++ [Ran QuestionAgent (JString (generationPrompt o userInput n))] |}).
Proof.
  intros Hw. unfold decompose_task, bind, agent_run, ret, fallback_subtasks.
  destruct (question_agent w _) as [resp | msg]; [| reflexivity].
  destruct (JSON_parse w _) as [[| | | | qs |] |]; try reflexivity.
  destruct (decide _); [done | reflexivity].
Qed.

(** C1. With five agents configured and a question agent that fails,
    [decompose_task] returns the four predefined questions: four subtasks,
    not five. *)
Theorem decompose_task_fallback_short :
  length (fst (decompose_task Demo.down (Demo.orch 5 300) "q" 5 (Demo.start 5 300))) = 4%nat
  /\ fst (decompose_task Demo.down (Demo.orch 5 300) "q" 5 (Demo.start 5 300))
     = fallbackQuestions "q".
Proof. split; reflexivity. Qed.

(** ** Aggregation *)

(** C5. With no successful outcome, [aggregate_results] returns the fixed
    message as its value, and leaves the store as it was. *)
Theorem aggregate_results_all_failed w o (outcomes : list AgentResult) s :
  filter (fun r => status r = success) outcomes = [] ->
  aggregate_results w o outcomes s
  = ("All agents failed to provide results. Please try again.", s).
Proof.
  intros Hnone. unfold aggregate_results. rewrite Hnone. reflexivity.
Qed.

Lemma aggregate_results_all_failed_witness :
  filter (fun r => status r = success) [Demo.timed_out; Demo.failed] = []
  /\ aggregate_results Demo.down (Demo.orch 2 5) [Demo.timed_out; Demo.failed] (Demo.start 2 5)
     = ("All agents failed to provide results. Please try again.", Demo.start 2 5).
Proof.
  split; [reflexivity |].
  apply (aggregate_results_all_failed Demo.down (Demo.orch 2 5)
           [Demo.timed_out; Demo.failed] (Demo.start 2 5)).
  reflexivity.
Defined.

(** C6. With exactly one successful outcome, [aggregate_results] returns
    its response as it is and leaves the store as it was: no agent is
    run. *)
Theorem aggregate_results_single_success w o (outcomes : list AgentResult) r s :
  filter (fun r => status r = success) outcomes = [r] ->
  aggregate_results w o outcomes s = (response r, s).
Proof.
  intros Hone. unfold aggregate_results. rewrite Hone. simpl.
  destruct (String.eqb _ _); reflexivity.
Qed.

Lemma aggregate_results_single_success_witness :
  filter (fun r => status r = success) [Demo.timed_out; Demo.answer "a"; Demo.failed]
  = [Demo.answer "a"]
  /\ aggregate_results Demo.down (Demo.orch 3 5)
       [Demo.timed_out; Demo.answer "a"; Demo.failed] (Demo.start 3 5)
     = ("a", Demo.start 3 5).
Proof.
  split; [reflexivity |].
  apply (aggregate_results_single_success Demo.down (Demo.orch 3 5)
           [Demo.timed_out; Demo.answer "a"; Demo.failed] (Demo.answer "a") (Demo.start 3 5)).
  reflexivity.
Defined.

(** In src/orchestrator.ts, with two successful outcomes or more and a
    synthesis call that fails, the result is the labelled responses with a
    blank line between them; the message of the failure is not in it. *)
Lemma aggregate_results_synthesis_fails w o (outcomes : list AgentResult) s msg :
  (2 <= length (successful_responses outcomes))%nat ->
  synthesis_agent w (synthesisPrompt o (successful_responses outcomes)) = Rejected msg ->
  fst (aggregate_results w o outcomes s)
  = labelled_concatenation (successful_responses outcomes).
Proof.
  unfold successful_responses, aggregate_results. intros Htwo Hfail.
  rewrite length_map in Htwo.
  destruct (decide _) as [Hz | _]; [lia |].
  assert (Hcons : forall rs, (2 <= length rs)%nat ->
            synthesis_agent w (synthesisPrompt o rs) = Rejected msg ->
            fst (_aggregate_consensus w o rs s) = labelled_concatenation rs).
  { intros [| r1 [| r2 rs]] Hlen Hrej; simpl in Hlen; try lia.
    unfold _aggregate_consensus, bind, agent_run, ret. rewrite Hrej. reflexivity. }
  rewrite <- length_map with (f := response) in Htwo.
  destruct (String.eqb _ _); by apply Hcons.
Qed.

(** The second copy agrees with src/orchestrator.ts when no outcome or one
    outcome is a success. *)
Lemma refactored_all_failed w o (outcomes : list AgentResult) s :
  filter (fun r => status r = success) outcomes = [] ->
  Refactored.aggregate_results w o outcomes s
  = ("All agents failed to provide results. Please try again.", s).
Proof.
  intros Hnone. unfold Refactored.aggregate_results. by rewrite Hnone.
Qed.

Lemma refactored_single_success w o (outcomes : list AgentResult) r s :
  filter (fun r => status r = success) outcomes = [r] ->
  Refactored.aggregate_results w o outcomes s = (response r, s).
Proof.
  intros Hone. unfold Refactored.aggregate_results. by rewrite Hone.
Qed.

(** C7. In the second copy of the class the fallback joins the labelled
    responses with a single line feed: no blank line separates them, as
    the fallback of src/orchestrator.ts does. *)
Theorem refactored_fallback_has_no_blank_line :
  fst (Refactored.aggregate_results Demo.down (Demo.orch 3 5) Demo.two_successes (Demo.start 3 5))
  = "=== Agent 1 Response ===" +:+ LF +:+ "a" +:+ LF
    +:+ "=== Agent 2 Response ===" +:+ LF +:+ "b"
  /\ fst (aggregate_results Demo.down (Demo.orch 3 5) Demo.two_successes (Demo.start 3 5))
     = "=== Agent 1 Response ===" +:+ LF +:+ "a" +:+ LF +:+ LF
       +:+ "=== Agent 2 Response ===" +:+ LF +:+ "b"
  /\ fst (Refactored.aggregate_results Demo.down (Demo.orch 3 5) Demo.two_successes (Demo.start 3 5))
     <> labelled_concatenation (successful_responses Demo.two_successes).
Proof. split; [reflexivity | split; [reflexivity | discriminate]]. Qed.

(** ** Construction *)

(** The constructor allocates two distinct Maps. *)
Lemma new_TaskOrchestrator_allocated cfg s :
  let o := fst (new_TaskOrchestrator cfg s) in
  let s' := snd (new_TaskOrchestrator cfg s) in
  allocated o s' /\ agent_progress o <> agent_results o
  /\ Map.content s' (agent_progress o) = ∅.
Proof.
  unfold new_TaskOrchestrator, allocated, Map.content, bind, Map.new, ret. simpl.
  rewrite !length_app. simpl. split; [lia |]. split; [lia |].
  rewrite <- app_assoc. simpl. by rewrite list_lookup_middle.
Qed.

(** ** Dispatch *)

Section Dispatch.

Variable o : TaskOrchestrator.

Lemma callback_outcome ev s : fst (callback o ev s) = event_outcome o ev.
Proof. destruct ev; reflexivity. Qed.

Lemma event_outcome_id ev : agent_id (event_outcome o ev) = Z.of_nat (event_slot ev).
Proof. destruct ev; reflexivity. Qed.

Lemma event_outcome_timer i : event_outcome o (TimerFired i) = timeout_outcome o i.
Proof. reflexivity. Qed.

(** An event touches the promises of its own slot only. *)
Lemma on_event_slots ev d :
  slots (on_event o ev d) = alter (slot_step o ev) (event_slot ev) (slots d).
Proof.
  unfold on_event.
  destruct (slots d !! event_slot ev) as [sl |] eqn:Hsl.
  - assert (Hkeep : forall f, f sl = sl ->
              alter f (event_slot ev) (slots d) = slots d).
    { intros f Hf. apply list_eq. intros j.
      destruct (decide (event_slot ev = j)) as [<- | Hne].
      - rewrite list_lookup_alter_eq, Hsl. simpl. by rewrite Hf.
      - by rewrite list_lookup_alter_ne. }
    assert (Hput : forall f sl', f sl = sl' ->
              <[event_slot ev := sl']> (slots d) = alter f (event_slot ev) (slots d)).
    { intros f sl' Hf. rewrite list_insert_alter.
      apply list_alter_ext; [| done]. intros x Hx. congruence. }
    destruct ev as [i resp ms | i msg | i]; simpl in *;
      unfold task_settles, timer_fires.
    + destruct (taskPromise sl) eqn:Ht.
      * symmetry. apply Hkeep. simpl. by rewrite Ht.
      * simpl. apply Hput. simpl. by rewrite Ht.
    + destruct (taskPromise sl) eqn:Ht.
      * symmetry. apply Hkeep. simpl. by rewrite Ht.
      * simpl. apply Hput. simpl. by rewrite Ht.
    + destruct (timeoutPromise sl) eqn:Ht.
      * symmetry. apply Hkeep. simpl. by rewrite Ht.
      * simpl. apply Hput. simpl. by rewrite Ht.
  - apply list_eq. intros j.
    destruct (decide (event_slot ev = j)) as [<- | Hne].
    + by rewrite list_lookup_alter_eq, Hsl.
    + by rewrite list_lookup_alter_ne.
Qed.

Lemma on_event_length ev d : length (slots (on_event o ev d)) = length (slots d).
Proof. by rewrite on_event_slots, length_alter. Qed.

Lemma run_events_cons ev evs d :
  run_events o (ev :: evs) d = run_events o evs (on_event o ev d).
Proof. reflexivity. Qed.

Lemma run_events_app evs1 evs2 d :
  run_events o (evs1 ++ evs2) d = run_events o evs2 (run_events o evs1 d).
Proof. unfold run_events. by rewrite foldl_app. Qed.

Lemma run_events_length evs : forall d,
  length (slots (run_events o evs d)) = length (slots d).
Proof.
  induction evs as [| ev evs IH]; intros d; [reflexivity |].
  by rewrite run_events_cons, IH, on_event_length.
Qed.

(** A settled race keeps its value. *)
Lemma slot_step_durable ev sl r : race sl = Some r -> race (slot_step o ev sl) = Some r.
Proof.
  intros Hr. destruct ev; simpl;
    repeat match goal with |- context [match ?x with _ => _ end] => destruct x end;
    simpl; by rewrite ?Hr.
Qed.

(** The first event of a slot settles its race. *)
Lemma slot_step_first ev sl :
  coherent sl -> race sl = None -> race (slot_step o ev sl) = Some (event_outcome o ev).
Proof.
  intros Hco Hr. destruct (Hco Hr) as [Ht Hti].
  destruct ev; simpl; rewrite ?Ht, ?Hti; simpl; by rewrite Hr.
Qed.

Lemma slot_step_coherent ev sl : coherent sl -> coherent (slot_step o ev sl).
Proof.
  intros Hco Hnone. destruct (race sl) as [r |] eqn:Hr.
  - by rewrite (slot_step_durable ev sl r Hr) in Hnone.
  - by rewrite (slot_step_first ev sl Hco Hr) in Hnone.
Qed.

Lemma on_event_coherent ev d :
  Forall coherent (slots d) -> Forall coherent (slots (on_event o ev d)).
Proof.
  rewrite on_event_slots, !Forall_lookup. intros Hall j sl Hj.
  destruct (decide (event_slot ev = j)) as [<- | Hne].
  - rewrite list_lookup_alter_eq in Hj.
    destruct (slots d !! event_slot ev) as [sl0 |] eqn:Hsl; simplify_eq/=.
    apply slot_step_coherent. by eapply Hall.
  - rewrite list_lookup_alter_ne in Hj by done. by eapply Hall.
Qed.

Lemma outcome_of_on_event ev d i :
  Forall coherent (slots d) ->
  (i < length (slots d))%nat ->
  outcome_of (on_event o ev d) i
  = match outcome_of d i with
    | Some r => Some r
    | None => if decide (event_slot ev = i) then Some (event_outcome o ev) else None
    end.
Proof.
  intros Hco Hi. unfold outcome_of. rewrite on_event_slots.
  destruct (lookup_lt_is_Some_2 _ _ Hi) as [sl Hsl].
  destruct (decide (event_slot ev = i)) as [<- | Hne].
  - rewrite list_lookup_alter_eq, Hsl. simpl.
    destruct (race sl) as [r |] eqn:Hr.
    + by apply slot_step_durable.
    + apply slot_step_first; [| done].
      rewrite Forall_lookup in Hco. by eapply Hco.
  - rewrite list_lookup_alter_ne by done. rewrite Hsl. simpl.
    by destruct (race sl).
Qed.

(** The outcome of a slot after a schedule: the one it had, or else the
    outcome of the first event of the slot. *)
Lemma outcome_of_run_events evs : forall d i,
  Forall coherent (slots d) ->
  (i < length (slots d))%nat ->
  outcome_of (run_events o evs d) i
  = match outcome_of d i with
    | Some r => Some r
    | None => event_outcome o <$> first_event i evs
    end.
Proof.
  induction evs as [| ev evs IH]; intros d i Hco Hi.
  - simpl. by destruct (outcome_of d i).
  - rewrite run_events_cons, IH;
      [| by apply on_event_coherent | by rewrite on_event_length].
    rewrite outcome_of_on_event by done. simpl.
    destruct (outcome_of d i); [done |].
    by destruct (decide (event_slot ev = i)).
Qed.

Lemma first_event_slot i evs ev : first_event i evs = Some ev -> event_slot ev = i.
Proof.
  induction evs as [| e evs IH]; simpl; [done |].
  destruct (decide (event_slot e = i)); [congruence | done].
Qed.

Lemma first_event_app i evs1 evs2 ev :
  first_event i evs1 = Some ev -> first_event i (evs1 ++ evs2) = Some ev.
Proof.
  induction evs1 as [| e evs1 IH]; simpl; [done |].
  by destruct (decide (event_slot e = i)).
Qed.

Lemma first_event_In i evs ev :
  In ev evs -> event_slot ev = i -> is_Some (first_event i evs).
Proof.
  induction evs as [| e evs IH]; simpl; [done |].
  intros [-> | Hin] Hslot.
  - rewrite decide_True by done. eauto.
  - destruct (decide (event_slot e = i)); eauto.
Qed.

(** [await_all] runs a prefix of the schedule and stops at the first
    state in which every race has settled. *)
Lemma await_all_spec sched : forall d res d' late,
  await_all o sched d = (res, d', late) ->
  exists ran,
    sched = ran ++ late /\ d' = run_events o ran d
    /\ mapM race (slots d') = res /\ (res = None -> late = []).
Proof.
  induction sched as [| ev sched IH]; intros d res d' late; simpl.
  - destruct (mapM race (slots d)) as [rs |] eqn:Hm; intros [= <- <- <-];
      exists []; by rewrite ?Hm.
  - destruct (mapM race (slots d)) as [rs |] eqn:Hm.
    + intros [= <- <- <-]. exists []. by rewrite Hm.
    + intros Hrest. destruct (IH _ _ _ _ Hrest) as (ran & -> & -> & Hres & Hlate).
      exists (ev :: ran). by rewrite run_events_cons.
Qed.

Lemma pending_coherent n : Forall coherent (replicate n pending).
Proof. apply Forall_replicate. by intros _. Qed.

Lemma outcome_of_pending s n i :
  outcome_of {| mem := s; slots := replicate n pending |} i = None.
Proof.
  unfold outcome_of. simpl.
  destruct (replicate n pending !! i) as [sl |] eqn:Hsl; [| done].
  apply lookup_replicate in Hsl as [-> _]. done.
Qed.

(** When the controller resumes it holds one outcome per launched slot, at
    the index of the slot: the outcome of the first event of that slot,
    whatever the order of the events. *)
Lemma dispatch_outcomes sched s n results d late :
  await_all o sched {| mem := s; slots := replicate n pending |} = (Some results, d, late) ->
  length results = n
  /\ forall i, (i < n)%nat ->
       exists ev, first_event i sched = Some ev
                  /\ results !! i = Some (event_outcome o ev).
Proof.
  intros Hawait.
  destruct (await_all_spec _ _ _ _ _ Hawait) as (ran & -> & -> & Hres & _).
  apply mapM_Some in Hres.
  pose proof (Forall2_length _ _ _ Hres) as Hlen.
  rewrite run_events_length in Hlen. simpl in Hlen. rewrite length_replicate in Hlen.
  split; [done |]. intros i Hi.
  destruct (lookup_lt_is_Some_2 results i) as [r Hr]; [lia |].
  destruct (Forall2_lookup_r _ _ _ _ _ Hres Hr) as (sl & Hsl & Hrace).
  pose proof (outcome_of_run_events ran {| mem := s; slots := replicate n pending |} i
                (pending_coherent n)) as Hout.
  simpl in Hout. rewrite length_replicate in Hout. specialize (Hout Hi).
  rewrite outcome_of_pending in Hout.
  unfold outcome_of in Hout at 1. rewrite Hsl in Hout. simpl in Hout.
  rewrite Hrace in Hout.
  destruct (first_event i ran) as [ev |] eqn:Hev; simplify_eq/=.
  exists ev. split; [by apply first_event_app | done].
Qed.

(** When every launched slot has an event in the schedule, the controller
    resumes. *)
Lemma dispatch_completes sched s n :
  (forall i, (i < n)%nat -> is_Some (first_event i sched)) ->
  exists results d late,
    await_all o sched {| mem := s; slots := replicate n pending |} = (Some results, d, late).
Proof.
  intros Hfair.
  destruct (await_all o sched _) as [[[results |] d] late] eqn:Hawait; [eauto |].
  exfalso.
  destruct (await_all_spec _ _ _ _ _ Hawait) as (ran & -> & -> & Hres & Hlate).
  rewrite (Hlate eq_refl), app_nil_r in Hfair.
  apply mapM_None, Exists_exists in Hres as (sl & Hin & Hrace).
  apply list_elem_of_lookup in Hin as [i Hsl].
  assert (Hi : (i < n)%nat).
  { apply lookup_lt_Some in Hsl. rewrite run_events_length in Hsl.
    simpl in Hsl. by rewrite length_replicate in Hsl. }
  pose proof (outcome_of_run_events ran {| mem := s; slots := replicate n pending |} i
                (pending_coherent n)) as Hout.
  simpl in Hout. rewrite length_replicate in Hout. specialize (Hout Hi).
  rewrite outcome_of_pending in Hout.
  unfold outcome_of in Hout at 1. rewrite Hsl in Hout. simpl in Hout.
  rewrite Hrace in Hout.
  destruct (Hfair i Hi) as [ev Hev]. by rewrite Hev in Hout.
Qed.

(** The outcomes are in the order of their ids, so the sort of
    [orchestrate] leaves them where they are. *)
Lemma dispatch_outcomes_sorted sched s n results d late :
  await_all o sched {| mem := s; slots := replicate n pending |} = (Some results, d, late) ->
  JS.sort (fun a b => agent_id a - agent_id b) results = results
  /\ agent_id <$> results = seqZ 0 (Z.of_nat n).
Proof.
  intros Hawait.
  destruct (dispatch_outcomes _ _ _ _ _ _ Hawait) as [Hlen Hat].
  assert (Hids : forall (i : nat) r, results !! i = Some r -> agent_id r = 0 + Z.of_nat i).
  { intros i r Hr.
    assert (Hi : (i < n)%nat) by (apply lookup_lt_Some in Hr; lia).
    destruct (Hat i Hi) as (ev & Hev & Hr'). simplify_eq.
    rewrite event_outcome_id. by rewrite (first_event_slot _ _ _ Hev). }
  split; [by apply (sort_counting_up results 0) |].
  apply list_eq. intros i. rewrite list_lookup_fmap.
  destruct (decide (i < n)%nat) as [Hi | Hi].
  - rewrite lookup_seqZ_lt by lia.
    destruct (lookup_lt_is_Some_2 results i) as [r Hr]; [lia |].
    rewrite Hr. simpl. by rewrite (Hids i r Hr).
  - rewrite lookup_seqZ_ge by lia.
    by rewrite lookup_ge_None_2 by lia.
Qed.

End Dispatch.

(** ** The store *)

Lemma bind_eq {A B} (m : M A) (k : A -> M B) s :
  bind m k s = k (fst (m s)) (snd (m s)).
Proof. unfold bind. by destruct (m s). Qed.

Lemma for_each_cons {A} (body : A -> M unit) x xs s :
  for_each body (x :: xs) s = for_each body xs (snd (body x s)).
Proof. simpl. by rewrite bind_eq. Qed.

Section Sentinel.

Variable o : TaskOrchestrator.

Lemma sentinel_written_refl s : sentinel_written o s s [].
Proof. exists []. by rewrite app_nil_r. Qed.

Lemma sentinel_written_trans s1 s2 s3 l1 l2 :
  sentinel_written o s1 s2 l1 -> sentinel_written o s2 s3 l2 ->
  sentinel_written o s1 s3 (l1 ++ l2).
Proof.
  intros (e1 & H1 & <-) (e2 & H2 & <-). exists (e1 ++ e2).
  split; [by rewrite H2, H1, app_assoc |]. unfold sentinel_statuses. by rewrite omap_app.
Qed.

Lemma sentinel_written_same_log s s' :
  set_log s' = set_log s -> sentinel_written o s s' [].
Proof. intros H. exists []. by rewrite app_nil_r. Qed.

Lemma set_sentinel_written m k v s :
  sentinel_written o s (snd (Map.set m k v s))
    (if decide (m = agent_progress o /\ k = -1) then [v] else []).
Proof.
  exists [(m, k, v)]. split; [done |]. unfold sentinel_statuses. simpl.
  by destruct (decide _).
Qed.

Lemma set_slot_written m k v s :
  k <> -1 -> sentinel_written o s (snd (Map.set m k v s)) [].
Proof.
  intros Hk. pose proof (set_sentinel_written m k v s) as H.
  rewrite decide_False in H; [done | tauto].
Qed.

(** A status written for the sentinel slot. *)
Lemma update_sentinel_written status s :
  sentinel_written o s (snd (update_agent_progress o (-1) status None s)) [status].
Proof.
  unfold update_agent_progress. rewrite bind_eq. simpl.
  pose proof (set_sentinel_written (agent_progress o) (-1) status s) as H.
  by rewrite decide_True in H.
Qed.

(** A status written for any other slot. *)
Lemma update_slot_written k status result s :
  k <> -1 -> sentinel_written o s (snd (update_agent_progress o k status result s)) [].
Proof.
  intros Hk. unfold update_agent_progress. rewrite bind_eq.
  destruct result as [r |].
  - eapply (sentinel_written_trans _ _ _ [] []); [| by apply set_slot_written].
    by apply set_slot_written.
  - simpl. by apply set_slot_written.
Qed.

Lemma callback_written ev s : sentinel_written o s (snd (callback o ev s)) [].
Proof.
  destruct ev as [i resp ms | i msg | i];
    unfold callback, run_agent_parallel_resolved, run_agent_parallel_rejected,
      timeout_callback;
    rewrite bind_eq; unfold ret; cbn [snd]; apply update_slot_written; lia.
Qed.

Lemma on_event_written ev d : sentinel_written o (mem d) (mem (on_event o ev d)) [].
Proof.
  unfold on_event.
  destruct (slots d !! event_slot ev) as [sl |]; [| apply sentinel_written_refl].
  destruct ev as [i resp ms | i msg | i]; unfold task_settles, timer_fires.
  - destruct (taskPromise sl); [apply sentinel_written_refl |].
    pose proof (callback_written (WorkerResolved i resp ms) (mem d)) as H.
    by destruct (callback o _ (mem d)).
  - destruct (taskPromise sl); [apply sentinel_written_refl |].
    pose proof (callback_written (WorkerRejected i msg) (mem d)) as H.
    by destruct (callback o _ (mem d)).
  - destruct (timeoutPromise sl); [apply sentinel_written_refl |].
    pose proof (callback_written (TimerFired i) (mem d)) as H.
    by destruct (callback o _ (mem d)).
Qed.

Lemma run_events_written evs : forall d,
  sentinel_written o (mem d) (mem (run_events o evs d)) [].
Proof.
  induction evs as [| ev evs IH]; intros d; [apply sentinel_written_refl |].
  rewrite run_events_cons.
  apply (sentinel_written_trans _ _ _ [] [] (on_event_written ev d) (IH _)).
Qed.

Lemma queued_written (ids : list Z) : forall s,
  Forall (fun i => 0 <= i) ids ->
  sentinel_written o s
    (snd (for_each (fun i => Map.set (agent_progress o) i AgentStatus.QUEUED) ids s)) [].
Proof.
  induction ids as [| i ids IH]; intros s Hids; [apply sentinel_written_refl |].
  rewrite for_each_cons. apply Forall_cons in Hids as [Hi Hids].
  eapply (sentinel_written_trans _ _ _ [] []); [| by apply IH].
  apply set_slot_written. lia.
Qed.

Lemma launch_each_written (tasks : list (nat * json)) : forall s,
  sentinel_written o s
    (snd (for_each (fun '(i, subtask) => run_agent_parallel_start o (Z.of_nat i) subtask)
            tasks s)) [].
Proof.
  induction tasks as [| [i subtask] tasks IH]; intros s; [apply sentinel_written_refl |].
  rewrite for_each_cons.
  eapply (sentinel_written_trans _ _ _ [] []); [| apply IH].
  unfold run_agent_parallel_start. rewrite bind_eq.
  destruct (update_slot_written (Z.of_nat i) AgentStatus.PROCESSING None s) as (ext & Hext & Hs);
    [lia |].
  by exists ext.
Qed.

Lemma launch_written subtasks s : sentinel_written o s (snd (launch o subtasks s)) [].
Proof. unfold launch. rewrite bind_eq. unfold ret. cbn [snd]. apply launch_each_written. Qed.

Lemma launch_slots subtasks s :
  fst (launch o subtasks s) = replicate (length subtasks) pending.
Proof. unfold launch. by rewrite bind_eq. Qed.

End Sentinel.

(** ** The controller *)

Section Controller.

Variable w : world.
Variable o : TaskOrchestrator.

Lemma orchestrate_begin_slots userInput s :
  fst (orchestrate_begin w o userInput s)
  = replicate (length (subtasks_of w o userInput)) pending.
Proof.
  unfold orchestrate_begin. repeat (rewrite bind_eq; cbv beta).
  rewrite launch_slots, decompose_task_result. reflexivity.
Qed.

Lemma orchestrate_begin_written userInput s :
  sentinel_written o s (snd (orchestrate_begin w o userInput s)) [AgentStatus.INITIALIZING].
Proof.
  unfold orchestrate_begin. repeat (rewrite bind_eq; cbv beta).
  eapply (sentinel_written_trans _ _ _ _ [AgentStatus.INITIALIZING] []);
    [| apply launch_written].
  eapply (sentinel_written_trans _ _ _ _ [AgentStatus.INITIALIZING] []);
    [| apply queued_written; apply Forall_seqZ; lia].
  eapply (sentinel_written_trans _ _ _ _ [AgentStatus.INITIALIZING] []);
    [| apply sentinel_written_same_log; by rewrite decompose_task_effect].
  eapply (sentinel_written_trans _ _ _ _ [] [AgentStatus.INITIALIZING]);
    [| apply update_sentinel_written].
  by apply sentinel_written_same_log.
Qed.

Lemma _aggregate_consensus_log responses s :
  set_log (snd (_aggregate_consensus w o responses s)) = set_log s.
Proof.
  unfold _aggregate_consensus.
  destruct responses as [| r1 [| r2 rest]]; try reflexivity;
    rewrite bind_eq; by destruct (synthesis_agent w _).
Qed.

Lemma aggregate_results_log outcomes s :
  set_log (snd (aggregate_results w o outcomes s)) = set_log s.
Proof.
  unfold aggregate_results. destruct (decide _); [reflexivity |].
  destruct (String.eqb _ _); apply _aggregate_consensus_log.
Qed.

Lemma orchestrate_end_sorted agentResults s :
  fst (fst (orchestrate_end w o agentResults s))
  = JS.sort (fun a b => agent_id a - agent_id b) agentResults.
Proof. unfold orchestrate_end. repeat (rewrite bind_eq; cbv beta). reflexivity. Qed.

Lemma orchestrate_end_written agentResults s :
  sentinel_written o s (snd (orchestrate_end w o agentResults s)) [AgentStatus.AGGREGATING].
Proof.
  unfold orchestrate_end. repeat (rewrite bind_eq; cbv beta). unfold ret. cbn [snd].
  eapply (sentinel_written_trans _ _ _ _ [AgentStatus.AGGREGATING] []);
    [apply update_sentinel_written |].
  apply sentinel_written_same_log, aggregate_results_log.
Qed.

(** [orchestrate], with the results of its first part spelled out. *)
Lemma orchestrate_eq userInput sched s :
  orchestrate w o userInput sched s
  = match await_all o sched
            {| mem := snd (orchestrate_begin w o userInput s);
               slots := replicate (length (subtasks_of w o userInput)) pending |} with
    | (Some agentResults, d, late) =>
        {| returned := Some (snd (fst (orchestrate_end w o agentResults (mem d))));
           handed := Some (fst (fst (orchestrate_end w o agentResults (mem d))));
           after := run_events o late
                      {| mem := snd (orchestrate_end w o agentResults (mem d));
                         slots := slots d |} |}
    | (None, d, _) => {| returned := None; handed := None; after := d |}
    end.
Proof.
  unfold orchestrate. rewrite <- (orchestrate_begin_slots userInput s).
  destruct (orchestrate_begin w o userInput s) as [launched s1]. cbn [fst snd].
  destruct (await_all o sched _) as [[[agentResults |] d] late]; [| reflexivity].
  by destruct (orchestrate_end w o agentResults (mem d)) as [[sorted final] s2].
Qed.

Lemma await_all_written sched d res d' late :
  await_all o sched d = (res, d', late) -> sentinel_written o (mem d) (mem d') [].
Proof.
  intros Hawait.
  destruct (await_all_spec _ _ _ _ _ _ Hawait) as (ran & _ & -> & _).
  apply run_events_written.
Qed.

(** The writes to the sentinel slot in the log of a call: INITIALIZING,
    and AGGREGATING once the controller has resumed. *)
Lemma sentinel_writes_logged userInput sched s :
  exists ext,
    set_log (mem (after (orchestrate w o userInput sched s))) = set_log s ++ ext
    /\ sentinel_statuses o ext
       = match returned (orchestrate w o userInput sched s) with
         | Some _ => [AgentStatus.INITIALIZING; AgentStatus.AGGREGATING]
         | None => [AgentStatus.INITIALIZING]
         end
    /\ ~ In (agent_progress o, -1, AgentStatus.COMPLETED) ext.
Proof.
  assert (Hmain : sentinel_written o s (mem (after (orchestrate w o userInput sched s)))
            (match returned (orchestrate w o userInput sched s) with
             | Some _ => [AgentStatus.INITIALIZING; AgentStatus.AGGREGATING]
             | None => [AgentStatus.INITIALIZING]
             end)).
  { rewrite orchestrate_eq.
    pose proof (orchestrate_begin_written userInput s) as Hbegin.
    destruct (await_all o sched _) as [[[agentResults |] d] late] eqn:Hawait; cbn [returned after].
    - pose proof (await_all_written _ _ _ _ _ Hawait) as Hwait. cbn [mem] in Hwait.
      pose proof (orchestrate_end_written agentResults (mem d)) as Hend.
      pose proof (run_events_written o late
                    {| mem := snd (orchestrate_end w o agentResults (mem d));
                       slots := slots d |}) as Hlate.
      cbn [mem] in Hlate.
      pose proof (sentinel_written_trans _ _ _ _ _ _ Hbegin Hwait) as H1.
      pose proof (sentinel_written_trans _ _ _ _ _ _ H1 Hend) as H2.
      pose proof (sentinel_written_trans _ _ _ _ _ _ H2 Hlate) as H3.
      by rewrite !app_nil_r in H3.
    - pose proof (await_all_written _ _ _ _ _ Hawait) as Hwait. cbn [mem] in Hwait.
      pose proof (sentinel_written_trans _ _ _ _ _ _ Hbegin Hwait) as H1.
      by rewrite app_nil_r in H1. }
  destruct Hmain as (ext & Hlog & Hst). exists ext. split; [done |]. split; [done |].
  intros Hin.
  assert (Hmem : In AgentStatus.COMPLETED (sentinel_statuses o ext)).
  { apply list_elem_of_In, list_elem_of_omap.
    exists (agent_progress o, -1, AgentStatus.COMPLETED).
    split; [by apply list_elem_of_In |]. by rewrite decide_True. }
  rewrite Hst in Hmem.
  destruct (returned _); simpl in Hmem; intuition discriminate.
Qed.

End Controller.

(** ** Runs of [orchestrate] *)

Section Runs.

Variable w : world.
Variable o : TaskOrchestrator.

(** The outcomes given to [aggregate_results] are those of the launched
    slots, one each, in the order of the slots, whatever the schedule. *)
Lemma orchestrate_hands_aligned userInput sched s outcomes :
  handed (orchestrate w o userInput sched s) = Some outcomes ->
  agent_id <$> outcomes = seqZ 0 (Z.of_nat (length (subtasks_of w o userInput)))
  /\ forall i, (i < length (subtasks_of w o userInput))%nat ->
       exists ev, first_event i sched = Some ev
                  /\ outcomes !! i = Some (event_outcome o ev).
Proof.
  rewrite orchestrate_eq.
  destruct (await_all o sched _) as [[[agentResults |] d] late] eqn:Hawait;
    cbn [handed]; [| done].
  rewrite orchestrate_end_sorted. intros [= <-].
  destruct (dispatch_outcomes_sorted _ _ _ _ _ _ _ Hawait) as [-> Hids].
  split; [done |]. by destruct (dispatch_outcomes _ _ _ _ _ _ _ Hawait).
Qed.

(** Once every timer has fired, [orchestrate] has returned. *)
Lemma orchestrate_returns userInput sched s :
  (forall j, (j < length (subtasks_of w o userInput))%nat -> In (TimerFired j) sched) ->
  exists outcomes final,
    handed (orchestrate w o userInput sched s) = Some outcomes
    /\ returned (orchestrate w o userInput sched s) = Some final.
Proof.
  intros Hfair. rewrite orchestrate_eq.
  destruct (dispatch_completes o sched (snd (orchestrate_begin w o userInput s))
              (length (subtasks_of w o userInput))) as (results & d & late & Hawait).
  { intros j Hj. by eapply first_event_In; [apply Hfair |]. }
  rewrite Hawait. cbn [handed returned]. eauto.
Qed.

(** C4. When the timer of a slot fires before the agent of the slot
    settles, and every timer fires in the end, [orchestrate] returns, and
    the outcome it has given to [aggregate_results] for that slot is the
    timeout outcome: status [timeout], the configured timeout as execution
    time, and the response "Agent k timed out after Ts". *)
Theorem timer_first_gives_timeout_outcome userInput sched s i :
  (i < length (subtasks_of w o userInput))%nat ->
  (forall j, (j < length (subtasks_of w o userInput))%nat -> In (TimerFired j) sched) ->
  first_event i sched = Some (TimerFired i) ->
  exists outcomes final,
    returned (orchestrate w o userInput sched s) = Some final
    /\ handed (orchestrate w o userInput sched s) = Some outcomes
    /\ outcomes !! i
       = Some {| agent_id := Z.of_nat i;
                 status := timeout;
                 response := "Agent " +:+ pretty (Z.of_nat i + 1) +:+ " timed out after "
                             +:+ pretty (task_timeout o) +:+ "s";
                 execution_time := inject_Z (task_timeout o) |}.
Proof.
  intros Hi Hfair Hfirst.
  destruct (orchestrate_returns userInput sched s Hfair) as (outcomes & final & Hh & Hr).
  exists outcomes, final. split; [done |]. split; [done |].
  destruct (orchestrate_hands_aligned _ _ _ _ Hh) as [_ Hat].
  destruct (Hat i Hi) as (ev & Hev & Hout). by simplify_eq.
Qed.

(** C10. With an agent count of 0, [orchestrate] returns the fixed
    message: no subtask is launched, [aggregate_results] gets the empty
    sequence, and the question agent is the only agent that was run. *)
Theorem orchestrate_without_agents userInput sched s :
  num_agents o = 0 ->
  returned (orchestrate w o userInput sched s)
  = Some "All agents failed to provide results. Please try again."
  /\ handed (orchestrate w o userInput sched s) = Some []
  /\ slots (after (orchestrate w o userInput sched s)) = []
  /\ runs (mem (after (orchestrate w o userInput sched s)))
     = runs s ++ [(QuestionAgent, JString (generationPrompt o userInput 0))].
Proof.
  intros Hzero.
  assert (Hsub : subtasks_of w o userInput = []).
  { apply length_zero_iff_nil. unfold subtasks_of.
    pose proof (decompose_task_length_upto4 w o userInput (num_agents o) empty_store) as H.
    rewrite Hzero in *. lia. }
  assert (Hnone : forall evs d, slots d = [] -> run_events o evs d = d).
  { induction evs as [| ev evs IH]; intros d Hd; [done |].
    rewrite run_events_cons. unfold on_event. rewrite Hd. simpl. by apply IH. }
  assert (Hruns : runs (snd (orchestrate_begin w o userInput s))
                  = runs s ++ [(QuestionAgent, JString (generationPrompt o userInput 0))]).
  { unfold orchestrate_begin. repeat (rewrite bind_eq; cbv beta).
    rewrite decompose_task_result. fold (subtasks_of w o userInput).
    rewrite Hsub, Hzero, decompose_task_effect. reflexivity. }
  rewrite orchestrate_eq, Hsub. simpl length. simpl replicate.
  assert (Hawait : await_all o sched
                     {| mem := snd (orchestrate_begin w o userInput s); slots := [] |}
                   = (Some [], {| mem := snd (orchestrate_begin w o userInput s); slots := [] |},
                      sched)).
  { by destruct sched. }
  rewrite Hawait. cbn [returned handed after mem slots].
  rewrite Hnone by done. cbn [slots mem].
  unfold orchestrate_end. repeat (rewrite bind_eq; cbv beta).
  by rewrite <- Hruns.
Qed.

End Runs.

Lemma timer_first_gives_timeout_outcome_witness :
  exists outcomes final,
    returned (orchestrate Demo.down (Demo.orch 2 5) "q" Demo.slow_second (Demo.start 2 5))
    = Some final
    /\ handed (orchestrate Demo.down (Demo.orch 2 5) "q" Demo.slow_second (Demo.start 2 5))
       = Some outcomes
    /\ outcomes !! 1%nat
       = Some {| agent_id := 1; status := timeout;
                 response := "Agent 2 timed out after 5s"; execution_time := 5%Q |}.
Proof.
  apply (timer_first_gives_timeout_outcome Demo.down (Demo.orch 2 5) "q"
           Demo.slow_second (Demo.start 2 5) 1%nat).
  - vm_compute. lia.
  - intros j Hj. change (j < 2)%nat in Hj.
    destruct j as [| [| j]]; simpl; [tauto | tauto | lia].
  - reflexivity.
Defined.

Lemma orchestrate_without_agents_witness :
  returned (orchestrate Demo.down (Demo.orch 0 5) "q" [TimerFired 0] (Demo.start 0 5))
  = Some "All agents failed to provide results. Please try again.".
Proof.
  apply (orchestrate_without_agents Demo.down (Demo.orch 0 5) "q" [TimerFired 0]
           (Demo.start 0 5)).
  reflexivity.
Defined.

(** One slow agent out of three: its outcome is the timeout, and the
    synthesis is asked about the two answers. *)
Example run_with_one_timeout :
  let r := orchestrate Demo.up (Demo.orch 3 5) "q" Demo.one_slow (Demo.start 3 5) in
  returned r = Some "synthesis"
  /\ option_map (map status) (handed r) = Some [success; timeout; success]
  /\ (handed r ≫= fun outcomes => outcomes !! 1%nat)
     = Some {| agent_id := 1; status := timeout;
               response := "Agent 2 timed out after 5s"; execution_time := 5%Q |}
  /\ last (runs (mem (after r)))
     = Some (SynthesisAgent,
             JString (synthesisPrompt (Demo.orch 3 5) ["a"; "c"])).
Proof. vm_compute. repeat (split; [reflexivity |]). reflexivity. Qed.

(** Two agents that both fail: the fixed message. *)
Example run_with_two_failures :
  let r := orchestrate Demo.up (Demo.orch 2 5) "q" Demo.both_fail (Demo.start 2 5) in
  returned r = Some "All agents failed to provide results. Please try again."
  /\ option_map (map response) (handed r)
     = Some ["Error: rate limited"; "Error: rate limited"]
  /\ progress_of (Demo.orch 2 5) (mem (after r)) 0 = Some "FAILED: rate limited".
Proof. vm_compute. repeat (split; [reflexivity |]). reflexivity. Qed.

(** A question agent that answers prose: the predefined questions about
    the user input are launched. *)
Example run_with_fallback_questions :
  let r := orchestrate Demo.up (Demo.orch 4 5) "q" [] (Demo.start 4 5) in
  returned r = None
  /\ tail (runs (mem (after r)))
     = [ (SlotAgent 0, JString "Research comprehensive information about: q");
         (SlotAgent 1, JString "Analyze and provide insights about: q");
         (SlotAgent 2, JString "Find alternative perspectives on: q");
         (SlotAgent 3, JString "Verify and cross-check facts about: q") ].
Proof. vm_compute. split; reflexivity. Qed.

(** With one to four agents configured, every slot in [0, N) has exactly
    one outcome in the sequence given to [aggregate_results], and the
    sequence is in the order of the slots. *)
Lemma orchestrate_one_outcome_per_slot w o userInput sched s :
  1 <= num_agents o <= 4 ->
  (forall j, Z.of_nat j < num_agents o -> In (TimerFired j) sched) ->
  exists outcomes,
    handed (orchestrate w o userInput sched s) = Some outcomes
    /\ agent_id <$> outcomes = seqZ 0 (num_agents o).
Proof.
  intros Hn Hfair.
  assert (Hlen : Z.of_nat (length (subtasks_of w o userInput)) = num_agents o).
  { unfold subtasks_of. apply decompose_task_length_upto4. lia. }
  destruct (orchestrate_returns w o userInput sched s) as (outcomes & final & Hh & _).
  { intros j Hj. apply Hfair. lia. }
  exists outcomes. split; [done |].
  destruct (orchestrate_hands_aligned _ _ _ _ _ _ Hh) as [-> _]. by rewrite Hlen.
Qed.

(** C2. With five agents configured and a question agent that fails, four
    subtasks are launched: [orchestrate] returns with the outcomes of slots
    0 to 3, and slot 4 has no outcome; its status stays QUEUED. *)
Theorem fallback_leaves_slot_without_outcome :
  let r := orchestrate Demo.down (Demo.orch 5 300) "q" Demo.four_answers (Demo.start 5 300) in
  option_map (map agent_id) (handed r) = Some [0; 1; 2; 3]
  /\ num_agents (Demo.orch 5 300) = 5
  /\ progress_of (Demo.orch 5 300) (mem (after r)) 4 = Some "QUEUED"
  /\ is_Some (returned r).
Proof.
  vm_compute. split; [reflexivity |]. split; [reflexivity |]. split; [reflexivity |]. eauto.
Qed.

(** ** The first settlement of a race *)

Section Settlement.

Variable o : TaskOrchestrator.

Lemma outcome_durable_step ev d i r :
  outcome_of d i = Some r -> outcome_of (on_event o ev d) i = Some r.
Proof.
  unfold outcome_of. rewrite on_event_slots. intros Hr.
  destruct (slots d !! i) as [sl |] eqn:Hsl; [| done]. simpl in Hr.
  destruct (decide (event_slot ev = i)) as [<- | Hne].
  - rewrite list_lookup_alter_eq, Hsl. simpl. by apply slot_step_durable.
  - rewrite list_lookup_alter_ne by done. by rewrite Hsl.
Qed.

(** The outcome recorded for a slot is never replaced. *)
Lemma outcome_durable evs : forall d i r,
  outcome_of d i = Some r -> outcome_of (run_events o evs d) i = Some r.
Proof.
  induction evs as [| ev evs IH]; intros d i r Hr; [done |].
  rewrite run_events_cons. by apply IH, outcome_durable_step.
Qed.

Lemma content_set_same m k v s :
  (m < length (maps s))%nat ->
  Map.content (snd (Map.set m k v s)) m = <[k := v]> (Map.content s m).
Proof.
  intros Hm. unfold Map.content. simpl. rewrite list_lookup_alter_eq.
  destruct (maps s !! m) as [c |] eqn:Hc; [done |].
  apply lookup_ge_None in Hc. lia.
Qed.

Lemma content_set_other m m' k v s :
  m <> m' -> Map.content (snd (Map.set m k v s)) m' = Map.content s m'.
Proof. intros Hne. unfold Map.content. simpl. by rewrite list_lookup_alter_ne. Qed.

Lemma set_length m k v s : length (maps (snd (Map.set m k v s))) = length (maps s).
Proof. simpl. apply length_alter. Qed.

(** What [update_agent_progress] leaves in the progress map. *)
Lemma progress_after_update k status result s :
  allocated o s ->
  agent_progress o <> agent_results o ->
  progress_of o (snd (update_agent_progress o k status result s)) k = Some status.
Proof.
  intros [Hp Hr] Hne. unfold update_agent_progress, progress_of. rewrite bind_eq.
  destruct result as [res |].
  - rewrite content_set_other by done. rewrite content_set_same by done.
    apply lookup_insert_eq.
  - unfold ret. cbn [snd]. rewrite content_set_same by done. apply lookup_insert_eq.
Qed.

Lemma callback_status ev s :
  allocated o s ->
  agent_progress o <> agent_results o ->
  progress_of o (snd (callback o ev s)) (Z.of_nat (event_slot ev)) = Some (event_status ev).
Proof.
  intros Hal Hne.
  destruct ev as [i resp ms | i msg | i];
    unfold callback, run_agent_parallel_resolved, run_agent_parallel_rejected,
      timeout_callback;
    rewrite bind_eq; unfold ret; cbn [snd event_slot event_status];
    by apply progress_after_update.
Qed.

(** The callback of an event whose promise is pending runs, and writes
    its status. *)
Lemma late_event_status ev d sl :
  allocated o (mem d) ->
  agent_progress o <> agent_results o ->
  slots d !! event_slot ev = Some sl ->
  still_pending ev sl ->
  progress_of o (mem (on_event o ev d)) (Z.of_nat (event_slot ev)) = Some (event_status ev).
Proof.
  intros Hal Hne Hsl Hpend. unfold on_event. rewrite Hsl.
  pose proof (callback_status ev (mem d) Hal Hne) as Hst.
  destruct ev as [i resp ms | i msg | i]; simpl in Hpend;
    unfold task_settles, timer_fires; rewrite Hpend;
    by destruct (callback o _ (mem d)).
Qed.

(** C3, as the code has it. Once the race of a slot has settled, the
    branch that lost, when it runs later, does not replace the outcome
    recorded for the slot: the outcome stays the one of the first
    settlement, whatever runs afterwards. The progress map is not guarded:
    the late branch writes its own status for the slot. *)
Theorem first_settlement_keeps_outcome d i sl r ev :
  allocated o (mem d) ->
  agent_progress o <> agent_results o ->
  slots d !! i = Some sl ->
  race sl = Some r ->
  event_slot ev = i ->
  still_pending ev sl ->
  (forall evs, outcome_of (run_events o (ev :: evs) d) i = Some r)
  /\ progress_of o (mem (on_event o ev d)) (Z.of_nat i) = Some (event_status ev).
Proof.
  intros Hal Hne Hsl Hr <- Hpend. split.
  - intros evs. apply outcome_durable. unfold outcome_of. by rewrite Hsl.
  - by eapply late_event_status.
Qed.

(** Events that run after the controller has resumed change neither the
    outcomes it was given nor the string it returns. *)
Lemma await_all_more sched extra : forall d results d' late,
  await_all o sched d = (Some results, d', late) ->
  await_all o (sched ++ extra) d = (Some results, d', late ++ extra).
Proof.
  induction sched as [| ev sched IH]; intros d results d' late; simpl.
  - destruct (mapM race (slots d)) as [rs |] eqn:Hm; intros [= <- <- <-].
    destruct extra; simpl; by rewrite Hm.
  - destruct (mapM race (slots d)) as [rs |] eqn:Hm.
    + by intros [= <- <- <-].
    + apply IH.
Qed.

End Settlement.

Lemma late_events_keep_result w o userInput sched extra s final :
  returned (orchestrate w o userInput sched s) = Some final ->
  returned (orchestrate w o userInput (sched ++ extra) s) = Some final
  /\ handed (orchestrate w o userInput (sched ++ extra) s)
     = handed (orchestrate w o userInput sched s).
Proof.
  rewrite !orchestrate_eq.
  destruct (await_all o sched _) as [[[results |] d] late] eqn:Hawait;
    cbn [returned]; [| done].
  rewrite (await_all_more o sched extra _ _ _ _ Hawait). cbn [returned handed]. by intros ->.
Qed.

Lemma first_settlement_keeps_outcome_witness :
  (forall evs,
      outcome_of (run_events (Demo.orch 1 300) (TimerFired 0 :: evs) Demo.answered) 0
      = Some Demo.answered_outcome)
  /\ progress_of (Demo.orch 1 300) (mem (on_event (Demo.orch 1 300) (TimerFired 0) Demo.answered))
       (Z.of_nat 0)
     = Some "FAILED: Timeout".
Proof.
  apply (first_settlement_keeps_outcome (Demo.orch 1 300) Demo.answered 0%nat
           Demo.answered_slot Demo.answered_outcome (TimerFired 0)).
  - vm_compute. lia.
  - vm_compute. lia.
  - reflexivity.
  - reflexivity.
  - reflexivity.
  - reflexivity.
Defined.

(** C3, as stated, fails: the agent of slot 0 has answered, the outcome of
    the slot is a success and its status COMPLETED; when the timer of the
    slot fires afterwards, the status of the slot becomes "FAILED: Timeout". *)
Lemma late_timer_overwrites_completed :
  outcome_of Demo.answered 0 = Some Demo.answered_outcome
  /\ progress_of (Demo.orch 1 300) (mem Demo.answered) 0 = Some "COMPLETED"
  /\ progress_of (Demo.orch 1 300)
       (mem (on_event (Demo.orch 1 300) (TimerFired 0) Demo.answered)) 0
     = Some "FAILED: Timeout"
  /\ ~ first_settlement_durable (Demo.orch 1 300) Demo.answered.
Proof.
  split; [reflexivity |]. split; [reflexivity |]. split; [reflexivity |].
  intros Hdurable.
  destruct (Hdurable 0%nat (TimerFired 0)) as [Hstatus _]; [by eexists |].
  vm_compute in Hstatus. discriminate.
Qed.

(** The other direction: the timer of slot 0 has fired and the outcome of
    the slot is the timeout; when the agent answers afterwards, the status
    of the slot becomes COMPLETED and the outcome stays the timeout. *)
Example late_answer_overwrites_timeout :
  outcome_of Demo.expired 0 = Some (timeout_outcome (Demo.orch 1 1) 0)
  /\ progress_of (Demo.orch 1 1) (mem Demo.expired) 0 = Some "FAILED: Timeout"
  /\ progress_of (Demo.orch 1 1)
       (mem (on_event (Demo.orch 1 1) (WorkerResolved 0 "a" 2500) Demo.expired)) 0
     = Some "COMPLETED"
  /\ outcome_of (on_event (Demo.orch 1 1) (WorkerResolved 0 "a" 2500) Demo.expired) 0
     = Some (timeout_outcome (Demo.orch 1 1) 0).
Proof. repeat (split; [reflexivity |]). reflexivity. Qed.

(** ** Progress snapshots *)

Section Snapshots.

Variable o : TaskOrchestrator.

Lemma copy_location m s : fst (Map.copy m s) = length (maps s).
Proof. reflexivity. Qed.

Lemma copy_maps m s : maps (snd (Map.copy m s)) = maps s ++ [Map.content s m].
Proof. reflexivity. Qed.

(** The new object holds the entries of the source. *)
Lemma copy_content m s :
  Map.content (snd (Map.copy m s)) (fst (Map.copy m s)) = Map.content s m.
Proof.
  unfold Map.content at 1. rewrite copy_maps, copy_location.
  by rewrite list_lookup_middle.
Qed.

(** The objects that existed keep their entries. *)
Lemma copy_keeps m m' s :
  (m' < length (maps s))%nat ->
  Map.content (snd (Map.copy m s)) m' = Map.content s m'.
Proof.
  intros Hm'. unfold Map.content at 1. rewrite copy_maps.
  by rewrite lookup_app_l.
Qed.

Lemma apply_op_other m m' op s :
  m <> m' -> Map.content (snd (apply_op m op s)) m' = Map.content s m'.
Proof.
  intros Hne. unfold Map.content.
  destruct op; simpl; by rewrite list_lookup_alter_ne.
Qed.

Lemma apply_op_length m op s : length (maps (snd (apply_op m op s))) = length (maps s).
Proof. destruct op; simpl; apply length_alter. Qed.

(** What a reader does to the Map it holds changes no other Map. *)
Lemma apply_ops_other m m' ops : forall s,
  m <> m' ->
  Map.content (snd (for_each (apply_op m) ops s)) m' = Map.content s m'.
Proof.
  induction ops as [| op ops IH]; intros s Hne; [reflexivity |].
  rewrite for_each_cons, IH by done. by apply apply_op_other.
Qed.

Lemma apply_ops_length m ops : forall s,
  length (maps (snd (for_each (apply_op m) ops s))) = length (maps s).
Proof.
  induction ops as [| op ops IH]; intros s; [reflexivity |].
  by rewrite for_each_cons, IH, apply_op_length.
Qed.

(** C8. [get_progress_status] returns a new Map with the entries of the
    live progress map. Whatever the reader does to the Map it was given,
    the live map keeps its entries, and the next snapshot is again a new
    Map with the entries of the live map; two snapshots taken one after
    the other hold the same entries. *)
Theorem get_progress_status_independent_copy (ops : list Map_op) s :
  (agent_progress o < length (maps s))%nat ->
  let live := agent_progress o in
  let snap1 := fst (get_progress_status o s) in
  let s1 := snd (get_progress_status o s) in
  let s2 := snd (for_each (apply_op snap1) ops s1) in
  let snap2 := fst (get_progress_status o s2) in
  let s3 := snd (get_progress_status o s2) in
  let snap3 := fst (get_progress_status o s3) in
  let s4 := snd (get_progress_status o s3) in
  snap1 <> live /\ snap2 <> live /\ snap2 <> snap1
  /\ Map.content s1 snap1 = Map.content s live
  /\ Map.content s2 live = Map.content s live
  /\ Map.content s3 snap2 = Map.content s live
  /\ Map.content s4 snap3 = Map.content s4 snap2.
Proof.
  intros Hlive live snap1 s1 s2 snap2 s3 snap3 s4.
  unfold get_progress_status in *.
  assert (Hsnap1 : snap1 = length (maps s)) by reflexivity.
  assert (Hlen1 : length (maps s1) = S (length (maps s))).
  { subst s1. rewrite copy_maps, length_app. simpl. lia. }
  assert (Hlen2 : length (maps s2) = S (length (maps s))).
  { subst s2. by rewrite apply_ops_length. }
  assert (Hsnap2 : snap2 = S (length (maps s))).
  { subst snap2. by rewrite copy_location. }
  assert (Hlen3 : length (maps s3) = S (S (length (maps s)))).
  { subst s3. rewrite copy_maps, length_app. simpl. lia. }
  assert (Hlive2 : Map.content s2 live = Map.content s live).
  { subst s2. rewrite apply_ops_other by (subst live; lia).
    subst s1. by apply copy_keeps. }
  assert (Hfresh2 : Map.content s3 snap2 = Map.content s live).
  { subst snap2 s3. by rewrite copy_content. }
  split; [subst live; lia |]. split; [subst live; lia |]. split; [lia |].
  split; [subst snap1 s1; apply copy_content |].
  split; [done |]. split; [done |].
  transitivity (Map.content s live).
  - subst snap3 s4. rewrite copy_content. subst s3. rewrite copy_keeps by (subst live; lia).
    done.
  - subst s4. rewrite copy_keeps by lia. done.
Qed.

(** A write of the orchestrator after a snapshot was taken does not show
    in the snapshot. *)
Lemma snapshot_keeps_entries k status result s :
  (agent_progress o < length (maps s))%nat ->
  (agent_results o < length (maps s))%nat ->
  let snap := fst (get_progress_status o s) in
  let s1 := snd (get_progress_status o s) in
  Map.content (snd (update_agent_progress o k status result s1)) snap
  = Map.content s (agent_progress o).
Proof.
  intros Hp Hr snap s1. unfold update_agent_progress. rewrite bind_eq.
  assert (Hsnap : snap = length (maps s)) by reflexivity.
  destruct result as [res |]; [rewrite content_set_other by lia |];
    unfold ret; cbn [snd];
    rewrite content_set_other by lia;
    apply copy_content.
Qed.

End Snapshots.

Lemma get_progress_status_independent_copy_witness :
  let o := Demo.orch 1 300 in
  let s := mem Demo.answered in
  let snap1 := fst (get_progress_status o s) in
  let s1 := snd (get_progress_status o s) in
  let s2 := snd (for_each (apply_op snap1) [OpSet 0 "x"; OpDelete (-1); OpClear] s1) in
  Map.content s2 (agent_progress o) = Map.content s (agent_progress o).
Proof.
  intros o s snap1 s1 s2.
  apply (get_progress_status_independent_copy o [OpSet 0 "x"; OpDelete (-1); OpClear] s).
  vm_compute. lia.
Defined.

(** * Further properties of the orchestrator *)

(** ** Decomposition *)

(** X1. When the question agent answers text that parses to an array of
    exactly [n] elements, [decompose_task] returns that array as it is. *)
Theorem decompose_task_uses_parsed_questions w o userInput n s resp questions :
  question_agent w (generationPrompt o userInput n) = Resolved resp ->
  JSON_parse w (JS.trim resp) = Some (JArray questions) ->
  Z.of_nat (length questions) = n ->
  decompose_task w o userInput n s
  = (questions,
     {| maps := maps s; set_log := set_log s;
        runs := runs s ++ [(QuestionAgent, JString (generationPrompt o userInput n))];
        trace := trace s ++ [Ran QuestionAgent (JString (generationPrompt o userInput n))] |}).
Proof.
  intros Hresp Hparse Hlen. unfold decompose_task, bind, agent_run, ret.
  rewrite Hresp, Hparse. by rewrite decide_True.
Qed.

Lemma decompose_task_uses_parsed_questions_witness :
  fst (decompose_task Demo2.listing (Demo.orch 2 5) "q" 2 (Demo.start 2 5))
  = [JString "first"; JString "second"].
Proof.
  rewrite (decompose_task_uses_parsed_questions Demo2.listing (Demo.orch 2 5) "q" 2
             (Demo.start 2 5) "a list of two questions"
             [JString "first"; JString "second"]);
    reflexivity.
Defined.

(** X2. With a negative agent count no parsed array can have the asked
    length, so [decompose_task] falls back whatever the question agent
    answers, and [slice(0, n)] counts from the end: the first [4 + n]
    predefined questions are returned (none from -4 downwards). *)
Theorem decompose_task_negative_count w o userInput n s :
  n < 0 ->
  fst (decompose_task w o userInput n s)
  = take (Z.to_nat (4 + n)) (fallbackQuestions userInput).
Proof.
  intros Hneg.
  destruct (decompose_task_cases w o userInput n s) as [Hlen | Hfb]; [lia |].
  rewrite Hfb. unfold fallback_subtasks, JS.slice0.
  destruct (Z.ltb_spec n 0) as [_ | Hge]; [| lia].
  simpl length. f_equal. lia.
Qed.

Lemma decompose_task_negative_count_witness :
  fst (decompose_task Demo2.listing (Demo.orch (-1) 5) "q" (-1) (Demo.start (-1) 5))
  = take 3 (fallbackQuestions "q").
Proof.
  apply (decompose_task_negative_count Demo2.listing (Demo.orch (-1) 5) "q" (-1)
           (Demo.start (-1) 5)).
  lia.
Defined.

(** X3. For an agent count from 0 to 4, [decompose_task] returns exactly
    that many subtasks, whatever the question agent answers. *)
Theorem decompose_task_exact_upto_four w o userInput n s :
  0 <= n <= 4 ->
  Z.of_nat (length (fst (decompose_task w o userInput n s))) = n.
Proof. apply decompose_task_length_upto4. Qed.

Lemma decompose_task_exact_upto_four_witness :
  Z.of_nat (length (fst (decompose_task Demo.up (Demo.orch 3 5) "q" 3 (Demo.start 3 5)))) = 3.
Proof.
  apply (decompose_task_exact_upto_four Demo.up (Demo.orch 3 5) "q" 3 (Demo.start 3 5)).
  lia.
Defined.

(** ** Aggregation *)

Lemma _aggregate_consensus_synthesis w o responses s :
  (2 <= length responses)%nat ->
  _aggregate_consensus w o responses s
  = (match synthesis_agent w (synthesisPrompt o responses) with
     | Resolved text => text
     | Rejected _ => labelled_concatenation responses
     end,
     {| maps := maps s; set_log := set_log s;
        runs := runs s ++ [(SynthesisAgent, JString (synthesisPrompt o responses))];
        trace := trace s ++ [Ran SynthesisAgent (JString (synthesisPrompt o responses))] |}).
Proof.
  destruct responses as [| r1 [| r2 rest]]; simpl; try lia. intros _.
  unfold _aggregate_consensus, bind, agent_run, ret.
  by destruct (synthesis_agent w _).
Qed.

(** What [aggregate_results] does, by the number of successful
    responses. *)
Lemma aggregate_results_by_successes w o outcomes s :
  aggregate_results w o outcomes s
  = match successful_responses outcomes with
    | [] => ("All agents failed to provide results. Please try again.", s)
    | [only] => (only, s)
    | responses =>
        (match synthesis_agent w (synthesisPrompt o responses) with
         | Resolved text => text
         | Rejected _ => labelled_concatenation responses
         end,
         {| maps := maps s; set_log := set_log s;
            runs := runs s ++ [(SynthesisAgent, JString (synthesisPrompt o responses))];
            trace := trace s ++ [Ran SynthesisAgent (JString (synthesisPrompt o responses))] |})
    end.
Proof.
  unfold aggregate_results, successful_responses.
  destruct (filter _ outcomes) as [| r1 [| r2 rest]] eqn:Hf; simpl.
  - reflexivity.
  - by destruct (String.eqb _ _).
  - assert (H2 : (2 <= length (response r1 :: response r2 :: map response rest))%nat)
      by (simpl; lia).
    pose proof (_aggregate_consensus_synthesis w o _ s H2) as Hsyn.
    by destruct (String.eqb _ _).
Qed.

(** X4. With two successful outcomes or more and a synthesis agent that
    answers, [aggregate_results] returns the answer of the synthesis agent
    as it is. *)
Theorem aggregate_results_synthesis_answers w o (outcomes : list AgentResult) s text :
  (2 <= length (successful_responses outcomes))%nat ->
  synthesis_agent w (synthesisPrompt o (successful_responses outcomes)) = Resolved text ->
  fst (aggregate_results w o outcomes s) = text.
Proof.
  rewrite aggregate_results_by_successes.
  destruct (successful_responses outcomes) as [| r1 [| r2 rest]];
    intros Htwo Hans; simpl in Htwo; try lia.
  cbv zeta. by rewrite Hans.
Qed.

Lemma aggregate_results_synthesis_answers_witness :
  fst (aggregate_results Demo.up (Demo.orch 3 5) Demo.two_successes (Demo.start 3 5))
  = "synthesis".
Proof.
  apply (aggregate_results_synthesis_answers Demo.up (Demo.orch 3 5) Demo.two_successes
           (Demo.start 3 5) "synthesis").
  - vm_compute. lia.
  - reflexivity.
Defined.

(** X5. [aggregate_results] looks at the successful responses only: two
    sequences of outcomes with the same successful responses, in the same
    order, give the same result and the same call of the synthesis agent,
    whatever their failed outcomes, their slot ids and their execution
    times are. *)
Theorem aggregate_results_ignores_failures w o (outcomes1 outcomes2 : list AgentResult) s :
  successful_responses outcomes1 = successful_responses outcomes2 ->
  aggregate_results w o outcomes1 s = aggregate_results w o outcomes2 s.
Proof. intros Hsame. by rewrite !aggregate_results_by_successes, Hsame. Qed.

Lemma aggregate_results_ignores_failures_witness :
  aggregate_results Demo.down (Demo.orch 3 5) Demo.two_successes (Demo.start 3 5)
  = aggregate_results Demo.down (Demo.orch 3 5)
      [Demo.timed_out; Demo.answer "a"; Demo.answer "b"; Demo.failed] (Demo.start 3 5).
Proof.
  apply (aggregate_results_ignores_failures Demo.down (Demo.orch 3 5) Demo.two_successes
           [Demo.timed_out; Demo.answer "a"; Demo.answer "b"; Demo.failed] (Demo.start 3 5)).
  reflexivity.
Defined.

(** ** What the callbacks touch *)

Section Frames.

Variable o : TaskOrchestrator.

Lemma content_set_key_ne m m' k k' v s :
  k <> k' -> Map.content (snd (Map.set m k v s)) m' !! k' = Map.content s m' !! k'.
Proof.
  intros Hk. unfold Map.content. simpl.
  destruct (decide (m = m')) as [<- | Hm].
  - rewrite list_lookup_alter_eq. destruct (maps s !! m) as [c |]; simpl; [| done].
    by rewrite lookup_insert_ne.
  - by rewrite list_lookup_alter_ne.
Qed.

Lemma update_other_map k status result s m :
  m <> agent_progress o -> m <> agent_results o ->
  Map.content (snd (update_agent_progress o k status result s)) m = Map.content s m.
Proof.
  intros Hp Hr. unfold update_agent_progress. rewrite bind_eq.
  destruct result as [res |]; unfold ret; cbn [snd];
    rewrite ?content_set_other by done; done.
Qed.

Lemma update_other_key k k' status result s m :
  k <> k' ->
  Map.content (snd (update_agent_progress o k status result s)) m !! k'
  = Map.content s m !! k'.
Proof.
  intros Hk. unfold update_agent_progress. rewrite bind_eq.
  destruct result as [res |]; unfold ret; cbn [snd];
    rewrite ?content_set_key_ne by done; done.
Qed.

Lemma update_runs k status result s :
  runs (snd (update_agent_progress o k status result s)) = runs s.
Proof. unfold update_agent_progress. rewrite bind_eq. by destruct result. Qed.

Lemma update_maps_length k status result s :
  length (maps (snd (update_agent_progress o k status result s))) = length (maps s).
Proof.
  unfold update_agent_progress. rewrite bind_eq.
  destruct result as [res |]; unfold ret; cbn [snd]; rewrite ?set_length; done.
Qed.

(** The store after a callback is the store after one call of
    [update_agent_progress] for the slot of the event. *)
Lemma callback_store ev s :
  exists status result,
    snd (callback o ev s)
    = snd (update_agent_progress o (Z.of_nat (event_slot ev)) status result s).
Proof.
  destruct ev as [i resp ms | i msg | i];
    unfold callback, run_agent_parallel_resolved, run_agent_parallel_rejected,
      timeout_callback;
    rewrite bind_eq; unfold ret; cbn [snd event_slot]; eauto.
Qed.

(** An event leaves the store as it is, or runs its callback. *)
Lemma on_event_mem ev d :
  mem (on_event o ev d) = mem d \/ mem (on_event o ev d) = snd (callback o ev (mem d)).
Proof.
  unfold on_event. destruct (slots d !! event_slot ev) as [sl |]; [| by left].
  destruct ev as [i resp ms | i msg | i]; unfold task_settles, timer_fires.
  - destruct (taskPromise sl); [by left | right]. by destruct (callback o _ (mem d)).
  - destruct (taskPromise sl); [by left | right]. by destruct (callback o _ (mem d)).
  - destruct (timeoutPromise sl); [by left | right]. by destruct (callback o _ (mem d)).
Qed.

Lemma on_event_other_map ev d m :
  m <> agent_progress o -> m <> agent_results o ->
  Map.content (mem (on_event o ev d)) m = Map.content (mem d) m.
Proof.
  intros Hp Hr. destruct (on_event_mem ev d) as [-> | ->]; [done |].
  destruct (callback_store ev (mem d)) as (status & result & ->).
  by apply update_other_map.
Qed.

Lemma on_event_other_key ev d m k :
  k <> Z.of_nat (event_slot ev) ->
  Map.content (mem (on_event o ev d)) m !! k = Map.content (mem d) m !! k.
Proof.
  intros Hk. destruct (on_event_mem ev d) as [-> | ->]; [done |].
  destruct (callback_store ev (mem d)) as (status & result & ->).
  by apply update_other_key.
Qed.

Lemma on_event_runs ev d : runs (mem (on_event o ev d)) = runs (mem d).
Proof.
  destruct (on_event_mem ev d) as [-> | ->]; [done |].
  destruct (callback_store ev (mem d)) as (status & result & ->).
  apply update_runs.
Qed.

Lemma on_event_maps_length ev d :
  length (maps (mem (on_event o ev d))) = length (maps (mem d)).
Proof.
  destruct (on_event_mem ev d) as [-> | ->]; [done |].
  destruct (callback_store ev (mem d)) as (status & result & ->).
  apply update_maps_length.
Qed.

Lemma run_events_other_map evs : forall d m,
  m <> agent_progress o -> m <> agent_results o ->
  Map.content (mem (run_events o evs d)) m = Map.content (mem d) m.
Proof.
  induction evs as [| ev evs IH]; intros d m Hp Hr; [done |].
  rewrite run_events_cons, IH by done. by apply on_event_other_map.
Qed.

Lemma run_events_runs evs : forall d, runs (mem (run_events o evs d)) = runs (mem d).
Proof.
  induction evs as [| ev evs IH]; intros d; [done |].
  by rewrite run_events_cons, IH, on_event_runs.
Qed.

Lemma run_events_maps_length evs : forall d,
  length (maps (mem (run_events o evs d))) = length (maps (mem d)).
Proof.
  induction evs as [| ev evs IH]; intros d; [done |].
  by rewrite run_events_cons, IH, on_event_maps_length.
Qed.

Lemma run_events_allocated evs d :
  allocated o (mem d) -> allocated o (mem (run_events o evs d)).
Proof. unfold allocated. by rewrite run_events_maps_length. Qed.

(** X6. A snapshot is not touched by what runs afterwards: whatever
    events of the dispatch run after [get_progress_status] has returned,
    the Map it returned keeps the entries that the live map had at the
    time of the call. *)
Theorem snapshot_unaffected_by_events evs s (launched : list slot) :
  allocated o s ->
  let snap := fst (get_progress_status o s) in
  let s1 := snd (get_progress_status o s) in
  Map.content (mem (run_events o evs {| mem := s1; slots := launched |})) snap
  = Map.content s (agent_progress o).
Proof.
  intros [Hp Hr] snap s1.
  assert (Hsnap : snap = length (maps s)) by reflexivity.
  rewrite run_events_other_map by lia. cbn [mem].
  subst snap s1. unfold get_progress_status. apply copy_content.
Qed.

(** X7. The slots do not interfere: events of other slots change neither
    the promises of a slot, nor its status, nor its entry in
    [agent_results]. *)
Theorem other_slots_do_not_interfere evs : forall d i,
  Forall (fun ev => event_slot ev <> i) evs ->
  slots (run_events o evs d) !! i = slots d !! i
  /\ progress_of o (mem (run_events o evs d)) (Z.of_nat i) = progress_of o (mem d) (Z.of_nat i)
  /\ result_of o (mem (run_events o evs d)) (Z.of_nat i) = result_of o (mem d) (Z.of_nat i).
Proof.
  induction evs as [| ev evs IH]; intros d i Hother; [done |].
  apply Forall_cons in Hother as [Hev Hother].
  rewrite run_events_cons.
  destruct (IH (on_event o ev d) i Hother) as (-> & -> & ->).
  unfold progress_of, result_of. rewrite !on_event_other_key by lia.
  split; [| done]. rewrite on_event_slots. by rewrite list_lookup_alter_ne.
Qed.

End Frames.

Lemma snapshot_unaffected_by_events_witness :
  let o := Demo.orch 2 5 in
  let s := snd (orchestrate_begin Demo.down o "q" (Demo.start 2 5)) in
  Map.content
    (mem (run_events o Demo2.both_answer
            {| mem := snd (get_progress_status o s); slots := replicate 2 pending |}))
    (fst (get_progress_status o s))
  = Map.content s (agent_progress o).
Proof.
  intros o s.
  apply (snapshot_unaffected_by_events o Demo2.both_answer s (replicate 2 pending)).
  split; vm_compute; lia.
Defined.

Lemma other_slots_do_not_interfere_witness :
  let o := Demo.orch 2 5 in
  let d := {| mem := snd (orchestrate_begin Demo.down o "q" (Demo.start 2 5));
              slots := replicate 2 pending |} in
  progress_of o (mem (run_events o [WorkerResolved 1 "b" 1500; TimerFired 1] d)) (Z.of_nat 0)
  = progress_of o (mem d) (Z.of_nat 0).
Proof.
  intros o d.
  apply (other_slots_do_not_interfere o [WorkerResolved 1 "b" 1500; TimerFired 1] d 0%nat).
  repeat constructor; simpl; lia.
Defined.

(** ** The progress map when the dispatch starts *)

Section Begin.

Variable w : world.
Variable o : TaskOrchestrator.

Lemma progress_set k k' v s :
  (agent_progress o < length (maps s))%nat ->
  progress_of o (snd (Map.set (agent_progress o) k v s)) k'
  = if decide (k = k') then Some v else progress_of o s k'.
Proof.
  intros Hp. unfold progress_of. destruct (decide (k = k')) as [<- | Hk].
  - rewrite content_set_same by done. apply lookup_insert_eq.
  - by apply content_set_key_ne.
Qed.

Lemma clear_content m m' s :
  (m' < length (maps s))%nat ->
  Map.content (snd (Map.clear m s)) m'
  = if decide (m = m') then ∅ else Map.content s m'.
Proof.
  intros Hm'. unfold Map.content. simpl.
  destruct (decide (m = m')) as [<- | Hne].
  - rewrite list_lookup_alter_eq. destruct (maps s !! m) as [c |] eqn:Hc; [done |].
    apply lookup_ge_None in Hc. lia.
  - by rewrite list_lookup_alter_ne.
Qed.

Lemma clear_maps_length m s : length (maps (snd (Map.clear m s))) = length (maps s).
Proof. simpl. apply length_alter. Qed.

Lemma queued_progress (ids : list Z) : forall s k,
  (agent_progress o < length (maps s))%nat ->
  progress_of o
    (snd (for_each (fun i => Map.set (agent_progress o) i AgentStatus.QUEUED) ids s)) k
  = if decide (k ∈ ids) then Some AgentStatus.QUEUED else progress_of o s k.
Proof.
  induction ids as [| i ids IH]; intros s k Hp.
  - rewrite decide_False by apply not_elem_of_nil. reflexivity.
  - rewrite for_each_cons, IH by (by rewrite set_length).
    rewrite progress_set by done.
    destruct (decide (k ∈ ids)) as [Hin | Hnin].
    + rewrite decide_True; [done | by apply elem_of_cons; right].
    + destruct (decide (i = k)) as [-> | Hne].
      * rewrite decide_True; [done | by apply elem_of_cons; left].
      * rewrite decide_False; [done |]. rewrite elem_of_cons.
        intros [Heq | Hin]; [by subst | done].
Qed.

Lemma queued_maps_length (ids : list Z) : forall s,
  length (maps (snd (for_each (fun i => Map.set (agent_progress o) i AgentStatus.QUEUED)
                       ids s)))
  = length (maps s).
Proof.
  induction ids as [| i ids IH]; intros s; [done |].
  by rewrite for_each_cons, IH, set_length.
Qed.

Lemma queued_runs (ids : list Z) : forall s,
  runs (snd (for_each (fun i => Map.set (agent_progress o) i AgentStatus.QUEUED) ids s))
  = runs s.
Proof.
  induction ids as [| i ids IH]; intros s; [done |].
  by rewrite for_each_cons, IH.
Qed.

Lemma start_store agentId subtask s :
  snd (run_agent_parallel_start o agentId subtask s)
  = {| maps := maps (snd (Map.set (agent_progress o) agentId AgentStatus.PROCESSING s));
       set_log := set_log (snd (Map.set (agent_progress o) agentId AgentStatus.PROCESSING s));
       runs := runs s ++ [(SlotAgent agentId, subtask)];
       trace := trace (snd (Map.set (agent_progress o) agentId AgentStatus.PROCESSING s))
                ++ [Ran (SlotAgent agentId) subtask] |}.
Proof. reflexivity. Qed.

Lemma launch_each_progress (tasks : list (nat * json)) : forall s k,
  (agent_progress o < length (maps s))%nat ->
  progress_of o
    (snd (for_each (fun '(i, subtask) => run_agent_parallel_start o (Z.of_nat i) subtask)
            tasks s)) k
  = if decide (k ∈ (fun task => Z.of_nat (fst task)) <$> tasks)
    then Some AgentStatus.PROCESSING else progress_of o s k.
Proof.
  induction tasks as [| [i subtask] tasks IH]; intros s k Hp.
  - rewrite decide_False by apply not_elem_of_nil. reflexivity.
  - rewrite for_each_cons, IH by (rewrite start_store; simpl; by rewrite length_alter).
    assert (Hset : progress_of o (snd (run_agent_parallel_start o (Z.of_nat i) subtask s)) k
                   = if decide (Z.of_nat i = k) then Some AgentStatus.PROCESSING
                     else progress_of o s k).
    { rewrite <- progress_set by done. reflexivity. }
    rewrite Hset. rewrite fmap_cons. cbn [fst].
    destruct (decide (k ∈ _ <$> tasks)) as [Hin | Hnin].
    + rewrite decide_True; [done | by apply elem_of_cons; right].
    + destruct (decide (Z.of_nat i = k)) as [<- | Hne].
      * rewrite decide_True; [done | by apply elem_of_cons; left].
      * rewrite decide_False; [done |]. rewrite elem_of_cons.
        intros [Heq | Hin]; [by subst | done].
Qed.

Lemma launch_each_maps_length (tasks : list (nat * json)) : forall s,
  length (maps (snd (for_each (fun '(i, subtask) =>
                                 run_agent_parallel_start o (Z.of_nat i) subtask) tasks s)))
  = length (maps s).
Proof.
  induction tasks as [| [i subtask] tasks IH]; intros s; [done |].
  rewrite for_each_cons, IH, start_store. simpl. apply length_alter.
Qed.

Lemma launch_each_runs (tasks : list (nat * json)) : forall s,
  runs (snd (for_each (fun '(i, subtask) => run_agent_parallel_start o (Z.of_nat i) subtask)
               tasks s))
  = runs s ++ ((fun task => (SlotAgent (Z.of_nat (fst task)), snd task)) <$> tasks).
Proof.
  induction tasks as [| [i subtask] tasks IH]; intros s.
  - simpl. by rewrite app_nil_r.
  - rewrite for_each_cons, IH, start_store. simpl. by rewrite <- app_assoc.
Qed.

Lemma launched_ids (subtasks : list json) k :
  k ∈ (fun task : nat * json => Z.of_nat (fst task)) <$> imap pair subtasks
  <-> 0 <= k < Z.of_nat (length subtasks).
Proof.
  rewrite list_elem_of_fmap. split.
  - intros ([i t] & -> & Hin). apply list_elem_of_lookup in Hin as [j Hj].
    rewrite list_lookup_imap in Hj.
    destruct (subtasks !! j) as [t' |] eqn:Ht; simplify_eq/=.
    apply lookup_lt_Some in Ht. lia.
  - intros Hk.
    destruct (lookup_lt_is_Some_2 subtasks (Z.to_nat k)) as [t Ht]; [lia |].
    exists (Z.to_nat k, t). split; [simpl; lia |].
    apply list_elem_of_lookup. exists (Z.to_nat k).
    by rewrite list_lookup_imap, Ht.
Qed.

Lemma launched_runs (subtasks : list json) :
  (fun task : nat * json => (SlotAgent (Z.of_nat (fst task)), snd task)) <$> imap pair subtasks
  = slot_runs subtasks.
Proof. unfold slot_runs. rewrite fmap_imap. by apply imap_ext. Qed.

(** The store that [orchestrate_begin] leaves. *)
Lemma orchestrate_begin_store userInput s :
  let s0 := snd (update_agent_progress o (-1) AgentStatus.INITIALIZING None
                   (snd (Map.clear (agent_results o) (snd (Map.clear (agent_progress o) s))))) in
  let s1 := snd (decompose_task w o userInput (num_agents o) s0) in
  let s2 := snd (for_each (fun i => Map.set (agent_progress o) i AgentStatus.QUEUED)
                   (seqZ 0 (num_agents o)) s1) in
  snd (orchestrate_begin w o userInput s)
  = snd (for_each (fun '(i, subtask) => run_agent_parallel_start o (Z.of_nat i) subtask)
           (imap pair (subtasks_of w o userInput)) s2).
Proof.
  intros s0 s1 s2. unfold orchestrate_begin. repeat (rewrite bind_eq; cbv beta).
  unfold launch. rewrite bind_eq. unfold ret. cbn [snd].
  by rewrite decompose_task_result.
Qed.

Lemma orchestrate_begin_maps_length userInput s :
  length (maps (snd (orchestrate_begin w o userInput s))) = length (maps s).
Proof.
  rewrite orchestrate_begin_store. cbv zeta.
  rewrite launch_each_maps_length, queued_maps_length, decompose_task_effect. cbn [maps].
  by rewrite update_maps_length, !clear_maps_length.
Qed.

Lemma orchestrate_begin_runs userInput s :
  runs (snd (orchestrate_begin w o userInput s))
  = runs s ++ (QuestionAgent, JString (generationPrompt o userInput (num_agents o)))
              :: slot_runs (subtasks_of w o userInput).
Proof.
  rewrite orchestrate_begin_store. cbv zeta.
  rewrite launch_each_runs, queued_runs, decompose_task_effect. cbn [runs].
  rewrite update_runs, launched_runs. cbn [Map.clear snd runs].
  by rewrite <- app_assoc.
Qed.

(** The entries of the progress map when [orchestrate_begin] is done. *)
Lemma orchestrate_begin_progress userInput s k :
  (agent_progress o < length (maps s))%nat ->
  (agent_results o < length (maps s))%nat ->
  progress_of o (snd (orchestrate_begin w o userInput s)) k
  = if decide (k = -1) then Some AgentStatus.INITIALIZING
    else if decide (0 <= k < Z.of_nat (length (subtasks_of w o userInput)))
         then Some AgentStatus.PROCESSING
    else if decide (0 <= k < num_agents o) then Some AgentStatus.QUEUED
    else None.
Proof.
  intros Hp Hr. rewrite orchestrate_begin_store. cbv zeta.
  assert (Hlen0 : forall s', length (maps s') = length (maps s) ->
                    (agent_progress o < length (maps s'))%nat) by (intros s' ->; done).
  rewrite launch_each_progress;
    [| apply Hlen0; rewrite queued_maps_length, decompose_task_effect; cbn [maps];
       by rewrite update_maps_length, !clear_maps_length].
  rewrite queued_progress;
    [| apply Hlen0; rewrite decompose_task_effect; cbn [maps];
       by rewrite update_maps_length, !clear_maps_length].
  assert (Hinit : progress_of o
            (snd (decompose_task w o userInput (num_agents o)
               (snd (update_agent_progress o (-1) AgentStatus.INITIALIZING None
                  (snd (Map.clear (agent_results o)
                     (snd (Map.clear (agent_progress o) s)))))))) k
          = if decide (k = -1) then Some AgentStatus.INITIALIZING else None).
  { unfold progress_of, Map.content at 1. rewrite decompose_task_effect. cbn [maps].
    fold (Map.content
            (snd (update_agent_progress o (-1) AgentStatus.INITIALIZING None
               (snd (Map.clear (agent_results o) (snd (Map.clear (agent_progress o) s))))))
            (agent_progress o)).
    unfold update_agent_progress. rewrite bind_eq. unfold ret. cbn [snd].
    fold (progress_of o
            (snd (Map.set (agent_progress o) (-1) AgentStatus.INITIALIZING
               (snd (Map.clear (agent_results o) (snd (Map.clear (agent_progress o) s))))))
            k).
    rewrite progress_set by (by rewrite !clear_maps_length).
    unfold progress_of.
    rewrite clear_content by (by rewrite clear_maps_length).
    rewrite clear_content by done.
    repeat case_decide; simplify_eq; rewrite ?lookup_empty; done. }
  rewrite Hinit.
  destruct (decide (k = -1)) as [-> | Hk].
  - rewrite decide_False by (rewrite launched_ids; lia).
    rewrite decide_False by (rewrite elem_of_seqZ; lia). done.
  - destruct (decide (0 <= k < Z.of_nat (length (subtasks_of w o userInput)))) as [Hl | Hl].
    + by rewrite decide_True by (by rewrite launched_ids).
    + rewrite decide_False by (by rewrite launched_ids).
      destruct (decide (0 <= k < num_agents o)) as [Hq | Hq].
      * by rewrite decide_True by (rewrite elem_of_seqZ; lia).
      * by rewrite decide_False by (rewrite elem_of_seqZ; lia).
Qed.

(** X8. When the dispatch starts, the progress map holds what this call
    has written and nothing of an earlier call: INITIALIZING for the
    sentinel, PROCESSING for every launched slot, QUEUED for the slots
    below the agent count that were not launched, and no other entry. *)
Theorem progress_when_dispatch_starts userInput s k :
  (agent_progress o < length (maps s))%nat ->
  (agent_results o < length (maps s))%nat ->
  progress_of o (snd (orchestrate_begin w o userInput s)) k
  = if decide (k = -1) then Some AgentStatus.INITIALIZING
    else if decide (0 <= k < Z.of_nat (length (subtasks_of w o userInput)))
         then Some AgentStatus.PROCESSING
    else if decide (0 <= k < num_agents o) then Some AgentStatus.QUEUED
    else None.
Proof. apply orchestrate_begin_progress. Qed.

End Begin.

Lemma progress_when_dispatch_starts_witness :
  progress_of (Demo.orch 5 300)
    (snd (orchestrate_begin Demo.down (Demo.orch 5 300) "q" (mem Demo.answered))) 4
  = Some AgentStatus.QUEUED.
Proof.
  rewrite (progress_when_dispatch_starts Demo.down (Demo.orch 5 300) "q" (mem Demo.answered) 4);
    [reflexivity | vm_compute; lia | vm_compute; lia].
Defined.

(** ** The agents that a call runs *)

Section Accounting.

Variable w : world.
Variable o : TaskOrchestrator.

Lemma aggregate_results_maps outcomes s :
  maps (snd (aggregate_results w o outcomes s)) = maps s.
Proof.
  rewrite aggregate_results_by_successes.
  by destruct (successful_responses outcomes) as [| r1 [| r2 rest]].
Qed.

Lemma aggregate_results_runs outcomes s :
  runs (snd (aggregate_results w o outcomes s))
  = runs s ++ (if decide (2 <= length (successful_responses outcomes))%nat
               then [(SynthesisAgent,
                      JString (synthesisPrompt o (successful_responses outcomes)))]
               else []).
Proof.
  rewrite aggregate_results_by_successes.
  destruct (successful_responses outcomes) as [| r1 [| r2 rest]];
    cbn [snd runs]; case_decide; simpl in *; try lia; by rewrite ?app_nil_r.
Qed.

Lemma orchestrate_end_store agentResults s :
  snd (orchestrate_end w o agentResults s)
  = snd (aggregate_results w o (JS.sort (fun a b => agent_id a - agent_id b) agentResults)
           (snd (update_agent_progress o (-1) AgentStatus.AGGREGATING None s))).
Proof. unfold orchestrate_end. repeat (rewrite bind_eq; cbv beta). reflexivity. Qed.

Lemma orchestrate_end_other_key agentResults s m k :
  k <> -1 ->
  Map.content (snd (orchestrate_end w o agentResults s)) m !! k = Map.content s m !! k.
Proof.
  intros Hk. rewrite orchestrate_end_store.
  unfold Map.content at 1. rewrite aggregate_results_maps.
  fold (Map.content (snd (update_agent_progress o (-1) AgentStatus.AGGREGATING None s)) m).
  apply update_other_key. lia.
Qed.

Lemma orchestrate_end_maps_length agentResults s :
  length (maps (snd (orchestrate_end w o agentResults s))) = length (maps s).
Proof.
  by rewrite orchestrate_end_store, aggregate_results_maps, update_maps_length.
Qed.

(** X9. The agents that a call of [orchestrate] has run when it returns:
    the question agent once, then the agent of every launched slot once,
    with its subtask and in the order of the slots, and the synthesis agent
    once if two outcomes or more are successes, and not at all otherwise.
    The events of the dispatch, also the late ones, run no agent. *)
Theorem agents_run_by_a_call userInput sched s outcomes :
  handed (orchestrate w o userInput sched s) = Some outcomes ->
  runs (mem (after (orchestrate w o userInput sched s)))
  = runs s
    ++ (QuestionAgent, JString (generationPrompt o userInput (num_agents o)))
       :: slot_runs (subtasks_of w o userInput)
    ++ (if decide (2 <= length (successful_responses outcomes))%nat
        then [(SynthesisAgent, JString (synthesisPrompt o (successful_responses outcomes)))]
        else []).
Proof.
  rewrite orchestrate_eq.
  destruct (await_all o sched _) as [[[agentResults |] d] late] eqn:Hawait;
    cbn [handed after]; [| done].
  rewrite orchestrate_end_sorted. intros [= <-].
  rewrite run_events_runs. cbn [mem].
  rewrite orchestrate_end_store, aggregate_results_runs, update_runs.
  destruct (await_all_spec _ _ _ _ _ _ Hawait) as (ran & _ & -> & _).
  rewrite run_events_runs. cbn [mem].
  rewrite orchestrate_begin_runs. by rewrite <- !app_assoc.
Qed.

End Accounting.

Lemma agents_run_by_a_call_witness :
  runs (mem (after (orchestrate Demo.up (Demo.orch 3 5) "q" Demo.one_slow (Demo.start 3 5))))
  = runs (Demo.start 3 5)
    ++ (QuestionAgent, JString (generationPrompt (Demo.orch 3 5) "q" 3))
       :: slot_runs (subtasks_of Demo.up (Demo.orch 3 5) "q")
    ++ [(SynthesisAgent, JString (synthesisPrompt (Demo.orch 3 5) ["a"; "c"]))].
Proof.
  apply (agents_run_by_a_call Demo.up (Demo.orch 3 5) "q" Demo.one_slow (Demo.start 3 5)
           [ {| agent_id := 0; status := success; response := "a";
                execution_time := (2000 # 1000)%Q |};
             {| agent_id := 1; status := timeout;
                response := "Agent 2 timed out after 5s"; execution_time := 5%Q |};
             {| agent_id := 2; status := success; response := "c";
                execution_time := (1000 # 1000)%Q |} ]).
  reflexivity.
Defined.

(** ** The sentinel slot during a call *)

Section SentinelSlot.

Variable w : world.
Variable o : TaskOrchestrator.

Lemma slot_write_dispatch e : slot_write e -> dispatch_effect e.
Proof. by destruct e. Qed.

Lemma slot_write_aggregation e : slot_write e -> aggregation_effect e.
Proof. by destruct e. Qed.

Lemma update_trace k status result s :
  trace (snd (update_agent_progress o k status result s))
  = trace s ++ Wrote (agent_progress o) k status
               :: match result with
                  | Some r => [Wrote (agent_results o) k r]
                  | None => []
                  end.
Proof.
  unfold update_agent_progress. rewrite bind_eq.
  destruct result as [r |]; simpl; by rewrite <- ?app_assoc.
Qed.

(** A callback writes the status of its event for its slot first. *)
Lemma callback_trace ev s :
  exists ext,
    trace (snd (callback o ev s))
    = trace s ++ Wrote (agent_progress o) (Z.of_nat (event_slot ev)) (event_status ev) :: ext
    /\ Forall slot_write ext.
Proof.
  destruct ev as [i resp ms | i msg | i];
    unfold callback, run_agent_parallel_resolved, run_agent_parallel_rejected,
      timeout_callback;
    rewrite bind_eq; unfold ret; cbn [snd]; rewrite update_trace;
    eexists; (split; [reflexivity |]); repeat constructor; simpl; lia.
Qed.

Lemma on_event_trace ev d :
  exists ext, trace (mem (on_event o ev d)) = trace (mem d) ++ ext /\ Forall slot_write ext.
Proof.
  destruct (on_event_mem o ev d) as [-> | ->].
  - exists []. by rewrite app_nil_r.
  - destruct (callback_trace ev (mem d)) as (ext & -> & Hext).
    eexists. split; [reflexivity |]. constructor; [simpl; lia | done].
Qed.

Lemma run_events_trace evs : forall d,
  exists ext, trace (mem (run_events o evs d)) = trace (mem d) ++ ext /\ Forall slot_write ext.
Proof.
  induction evs as [| ev evs IH]; intros d.
  - exists []. by rewrite app_nil_r.
  - rewrite run_events_cons.
    destruct (IH (on_event o ev d)) as (e2 & -> & H2).
    destruct (on_event_trace ev d) as (e1 & -> & H1).
    exists (e1 ++ e2). split; [by rewrite app_assoc | by apply Forall_app].
Qed.

(** The event that finds both promises of its slot pending runs its
    callback. *)
Lemma on_event_pending ev d :
  slots d !! event_slot ev = Some pending ->
  mem (on_event o ev d) = snd (callback o ev (mem d)).
Proof.
  intros Hsl. unfold on_event. rewrite Hsl.
  destruct ev as [i resp ms | i msg | i]; unfold task_settles, timer_fires, pending;
    cbn [taskPromise timeoutPromise]; by destruct (callback o _ (mem d)).
Qed.

(** The first event of a pending slot writes its status. *)
Lemma first_event_traced evs : forall d i ev,
  slots d !! i = Some pending ->
  first_event i evs = Some ev ->
  exists ext,
    trace (mem (run_events o evs d)) = trace (mem d) ++ ext
    /\ In (Wrote (agent_progress o) (Z.of_nat i) (event_status ev)) ext.
Proof.
  induction evs as [| e evs IH]; intros d i ev Hsl Hfirst; [done |].
  simpl in Hfirst. rewrite run_events_cons.
  destruct (decide (event_slot e = i)) as [<- | Hne].
  - injection Hfirst as ->.
    destruct (run_events_trace evs (on_event o ev d)) as (e2 & -> & _).
    rewrite on_event_pending by done.
    destruct (callback_trace ev (mem d)) as (e1 & -> & _).
    eexists. split; [by rewrite <- app_assoc |]. by left.
  - destruct (IH (on_event o e d) i ev) as (e2 & -> & Hin); [| done |].
    { rewrite on_event_slots. by rewrite list_lookup_alter_ne. }
    destruct (on_event_trace e d) as (e1 & -> & _).
    exists (e1 ++ e2). split; [by rewrite app_assoc |]. apply in_or_app. by right.
Qed.

Lemma run_events_sentinel evs : forall d m,
  Map.content (mem (run_events o evs d)) m !! (-1) = Map.content (mem d) m !! (-1).
Proof.
  induction evs as [| ev evs IH]; intros d m; [done |].
  rewrite run_events_cons, IH. apply on_event_other_key. lia.
Qed.

Lemma queued_trace (ids : list Z) : forall s,
  Forall (fun i => 0 <= i) ids ->
  exists ext,
    trace (snd (for_each (fun i => Map.set (agent_progress o) i AgentStatus.QUEUED) ids s))
    = trace s ++ ext
    /\ Forall dispatch_effect ext.
Proof.
  induction ids as [| i ids IH]; intros s Hids.
  - exists []. by rewrite app_nil_r.
  - apply Forall_cons in Hids as [Hi Hids]. rewrite for_each_cons.
    destruct (IH (snd (Map.set (agent_progress o) i AgentStatus.QUEUED s)) Hids)
      as (ext & -> & Hext).
    eexists. split; [simpl; by rewrite <- app_assoc |]. by constructor.
Qed.

Lemma launch_each_trace (tasks : list (nat * json)) : forall s,
  exists ext,
    trace (snd (for_each (fun '(i, subtask) => run_agent_parallel_start o (Z.of_nat i) subtask)
                  tasks s))
    = trace s ++ ext
    /\ Forall dispatch_effect ext.
Proof.
  induction tasks as [| [i subtask] tasks IH]; intros s.
  - exists []. by rewrite app_nil_r.
  - rewrite for_each_cons.
    destruct (IH (snd (run_agent_parallel_start o (Z.of_nat i) subtask s)))
      as (ext & -> & Hext).
    rewrite start_store. simpl.
    eexists. split; [by rewrite <- !app_assoc |].
    constructor; [simpl; lia |]. by constructor.
Qed.

(** The first effect of a call is the write of INITIALIZING for the
    sentinel slot. *)
Lemma orchestrate_begin_trace userInput s :
  exists ext,
    trace (snd (orchestrate_begin w o userInput s))
    = trace s ++ Wrote (agent_progress o) (-1) AgentStatus.INITIALIZING :: ext
    /\ Forall dispatch_effect ext.
Proof.
  rewrite orchestrate_begin_store. cbv zeta.
  match goal with
  | |- context [for_each ?f (imap pair ?ts) ?s0] =>
      destruct (launch_each_trace (imap pair ts) s0) as (e3 & -> & H3)
  end.
  match goal with
  | |- context [for_each ?f (seqZ 0 ?n) ?s0] =>
      destruct (queued_trace (seqZ 0 n) s0) as (e2 & -> & H2);
        [apply Forall_seqZ; lia |]
  end.
  rewrite decompose_task_effect. cbn [trace].
  rewrite update_trace. cbn [Map.clear snd trace].
  eexists. split; [by rewrite <- !app_assoc |].
  constructor; [done |]. by apply Forall_app.
Qed.

Lemma aggregate_results_trace outcomes s :
  exists ext,
    trace (snd (aggregate_results w o outcomes s)) = trace s ++ ext
    /\ Forall aggregation_effect ext.
Proof.
  rewrite aggregate_results_by_successes.
  destruct (successful_responses outcomes) as [| r1 [| r2 rest]]; cbn [snd trace].
  - exists []. by rewrite app_nil_r.
  - exists []. by rewrite app_nil_r.
  - eexists. split; [reflexivity |]. by constructor.
Qed.

(** The first effect of the controller when it resumes is the write of
    AGGREGATING for the sentinel slot; the synthesis agent, if it runs,
    runs after it. *)
Lemma orchestrate_end_trace agentResults s :
  exists ext,
    trace (snd (orchestrate_end w o agentResults s))
    = trace s ++ Wrote (agent_progress o) (-1) AgentStatus.AGGREGATING :: ext
    /\ Forall aggregation_effect ext.
Proof.
  rewrite orchestrate_end_store.
  destruct (aggregate_results_trace
              (JS.sort (fun a b => agent_id a - agent_id b) agentResults)
              (snd (update_agent_progress o (-1) AgentStatus.AGGREGATING None s)))
    as (ext & -> & Hext).
  rewrite update_trace. exists ext. split; [by rewrite <- app_assoc | done].
Qed.

Lemma orchestrate_end_sentinel agentResults s :
  (agent_progress o < length (maps s))%nat ->
  progress_of o (snd (orchestrate_end w o agentResults s)) (-1)
  = Some AgentStatus.AGGREGATING.
Proof.
  intros Hp. rewrite orchestrate_end_store.
  unfold progress_of, Map.content. rewrite aggregate_results_maps.
  pose proof (progress_set o (-1) (-1) AgentStatus.AGGREGATING s Hp) as Hset.
  by rewrite decide_True in Hset.
Qed.

(** When every race has settled, every launched slot has had an event. *)
Lemma races_settled_first_events evs s n results i :
  mapM race (slots (run_events o evs {| mem := s; slots := replicate n pending |}))
  = Some results ->
  (i < n)%nat ->
  is_Some (first_event i evs).
Proof.
  intros Hres Hi. rename evs into ran.
  apply mapM_Some in Hres.
  pose proof (Forall2_length _ _ _ Hres) as Hlen.
  rewrite run_events_length in Hlen. simpl in Hlen. rewrite length_replicate in Hlen.
  destruct (lookup_lt_is_Some_2 results i) as [r Hr]; [lia |].
  destruct (Forall2_lookup_r _ _ _ _ _ Hres Hr) as (sl & Hsl & Hrace).
  pose proof (outcome_of_run_events o ran {| mem := s; slots := replicate n pending |} i
                (pending_coherent n)) as Hout.
  simpl in Hout. rewrite length_replicate in Hout. specialize (Hout Hi).
  rewrite outcome_of_pending in Hout.
  unfold outcome_of in Hout at 1. rewrite Hsl in Hout. simpl in Hout.
  rewrite Hrace in Hout.
  destruct (first_event i ran) as [ev |]; [eauto | done].
Qed.

(** When the controller resumes, every launched slot has had an event
    among those that ran. *)
Lemma await_all_first_events sched s n results d late :
  await_all o sched {| mem := s; slots := replicate n pending |} = (Some results, d, late) ->
  exists ran,
    sched = ran ++ late
    /\ d = run_events o ran {| mem := s; slots := replicate n pending |}
    /\ forall i, (i < n)%nat -> is_Some (first_event i ran).
Proof.
  intros Hawait.
  destruct (await_all_spec _ _ _ _ _ _ Hawait) as (ran & -> & -> & Hres & _).
  exists ran. split; [done |]. split; [done |]. intros i Hi.
  by eapply races_settled_first_events.
Qed.

(** C9. During a call of [orchestrate] the sentinel slot takes two
    statuses. The first thing the call does that can be seen is to write
    INITIALIZING for the sentinel slot: nothing is written and no agent is
    started before. From then on, and at every moment at which the
    controller has not resumed, the progress map holds INITIALIZING for
    the sentinel slot. What follows up to the second write are writes for
    the slots and the starts of the question agent and of the agents of
    the slots; the first event of every launched slot has written its
    status by then. When the controller resumes it writes AGGREGATING for
    the sentinel slot before it aggregates: the synthesis agent is started
    after this write only, and at every later moment the progress map
    holds AGGREGATING for the sentinel slot. No other status is written
    for the sentinel slot, so COMPLETED never is. *)
Theorem sentinel_slot_statuses userInput sched s :
  allocated o s ->
  progress_of o (mem (after (orchestrate w o userInput sched s))) (-1)
  = match returned (orchestrate w o userInput sched s) with
    | Some _ => Some AgentStatus.AGGREGATING
    | None => Some AgentStatus.INITIALIZING
    end
  /\ exists dispatching aggregating,
       trace (mem (after (orchestrate w o userInput sched s)))
       = trace s ++ Wrote (agent_progress o) (-1) AgentStatus.INITIALIZING
                    :: dispatching ++ aggregating
       /\ Forall dispatch_effect dispatching
       /\ match returned (orchestrate w o userInput sched s) with
          | Some _ =>
              (forall i, (i < length (subtasks_of w o userInput))%nat ->
                 exists ev,
                   first_event i sched = Some ev
                   /\ In (Wrote (agent_progress o) (Z.of_nat i) (event_status ev))
                        dispatching)
              /\ exists rest,
                   aggregating
                   = Wrote (agent_progress o) (-1) AgentStatus.AGGREGATING :: rest
                   /\ Forall aggregation_effect rest
          | None => aggregating = []
          end
       /\ ~ In (Wrote (agent_progress o) (-1) AgentStatus.COMPLETED)
              (dispatching ++ aggregating).
Proof.
  intros [Hp Hr].
  assert (Hclean : forall dispatching aggregating,
            Forall dispatch_effect dispatching ->
            (aggregating = []
             \/ exists rest,
                  aggregating = Wrote (agent_progress o) (-1) AgentStatus.AGGREGATING :: rest
                  /\ Forall aggregation_effect rest) ->
            ~ In (Wrote (agent_progress o) (-1) AgentStatus.COMPLETED)
                (dispatching ++ aggregating)).
  { intros dispatching aggregating Hd Ha Hin. apply in_app_or in Hin as [Hin | Hin].
    - rewrite Forall_forall in Hd. apply list_elem_of_In, Hd in Hin. simpl in Hin. lia.
    - destruct Ha as [-> | (rest & -> & Hrest)]; [done |].
      destruct Hin as [Heq | Hin]; [discriminate |].
      rewrite Forall_forall in Hrest. apply list_elem_of_In, Hrest in Hin.
      simpl in Hin. lia. }
  rewrite orchestrate_eq.
  destruct (orchestrate_begin_trace userInput s) as (e1 & Hbegin & H1).
  pose proof (orchestrate_begin_progress w o userInput s (-1) Hp Hr) as Hinit.
  rewrite decide_True in Hinit by done.
  pose proof (orchestrate_begin_maps_length w o userInput s) as Hlen.
  destruct (await_all o sched _) as [[[agentResults |] d] late] eqn:Hawait;
    cbn [returned after].
  - destruct (await_all_first_events _ _ _ _ _ _ Hawait) as (ran & -> & -> & Hfirst).
    destruct (run_events_trace ran
                {| mem := snd (orchestrate_begin w o userInput s);
                   slots := replicate (length (subtasks_of w o userInput)) pending |})
      as (e2 & Hran & H2).
    cbn [mem] in Hran.
    set (d := run_events o ran
                {| mem := snd (orchestrate_begin w o userInput s);
                   slots := replicate (length (subtasks_of w o userInput)) pending |})
      in *.
    destruct (orchestrate_end_trace agentResults (mem d)) as (e3 & Hend & H3).
    destruct (run_events_trace late
                {| mem := snd (orchestrate_end w o agentResults (mem d));
                   slots := slots d |})
      as (e4 & Hlate & H4).
    cbn [mem] in Hlate.
    split.
    + unfold progress_of. rewrite run_events_sentinel. cbn [mem].
      apply orchestrate_end_sentinel.
      subst d. rewrite run_events_maps_length. cbn [mem]. by rewrite Hlen.
    + assert (Hagg : Forall aggregation_effect (e3 ++ e4)).
      { apply Forall_app. split; [done |].
        eapply Forall_impl; [exact H4 | apply slot_write_aggregation]. }
      assert (Hdis : Forall dispatch_effect (e1 ++ e2)).
      { apply Forall_app. split; [done |].
        eapply Forall_impl; [exact H2 | apply slot_write_dispatch]. }
      exists (e1 ++ e2),
        (Wrote (agent_progress o) (-1) AgentStatus.AGGREGATING :: e3 ++ e4).
      split; [| split; [done | split; [split |]]].
      * rewrite Hlate, Hend, Hran, Hbegin. rewrite <- !app_assoc. simpl.
        by rewrite <- ?app_assoc.
      * intros i Hi. destruct (Hfirst i Hi) as [ev Hev]. exists ev.
        split; [by apply first_event_app |].
        destruct (first_event_traced ran
                    {| mem := snd (orchestrate_begin w o userInput s);
                       slots := replicate (length (subtasks_of w o userInput)) pending |}
                    i ev) as (e2' & Hran' & Hin); [| done |].
        { simpl. by apply lookup_replicate_2. }
        cbn [mem] in Hran'. fold d in Hran'. rewrite Hran in Hran'.
        apply app_inv_head in Hran'. subst e2'.
        apply in_or_app. by right.
      * eauto.
      * apply Hclean; [done |]. right. eauto.
  - destruct (await_all_spec _ _ _ _ _ _ Hawait) as (ran & _ & -> & _).
    destruct (run_events_trace ran
                {| mem := snd (orchestrate_begin w o userInput s);
                   slots := replicate (length (subtasks_of w o userInput)) pending |})
      as (e2 & Hran & H2).
    cbn [mem] in Hran.
    assert (Hdis : Forall dispatch_effect (e1 ++ e2)).
    { apply Forall_app. split; [done |].
      eapply Forall_impl; [exact H2 | apply slot_write_dispatch]. }
    split.
    + unfold progress_of. rewrite run_events_sentinel. cbn [mem]. exact Hinit.
    + exists (e1 ++ e2), [].
      split; [| split; [done | split; [done |]]].
      * rewrite Hran, Hbegin, app_nil_r. by rewrite <- app_assoc.
      * apply Hclean; [done | by left].
Qed.

End SentinelSlot.

(** Three agents of which the second is slow: the call returns a
    synthesis, and the sentinel slot holds AGGREGATING. *)
Lemma sentinel_slot_statuses_witness :
  progress_of (Demo.orch 3 5)
    (mem (after (orchestrate Demo.up (Demo.orch 3 5) "q" Demo.one_slow (Demo.start 3 5))))
    (-1)
  = Some AgentStatus.AGGREGATING.
Proof.
  refine (proj1 (sentinel_slot_statuses Demo.up (Demo.orch 3 5) "q" Demo.one_slow
                   (Demo.start 3 5) _)).
  split; vm_compute; lia.
Defined.

(** ** A slot with one branch only *)

Section OneBranch.

Variable o : TaskOrchestrator.

Lemma pending_step ev d i :
  slots d !! i = Some pending -> event_slot ev <> i ->
  slots (on_event o ev d) !! i = Some pending.
Proof. intros Hsl Hne. by rewrite on_event_slots, list_lookup_alter_ne. Qed.

(** The first event of a pending slot. *)
Lemma settle_step ev d :
  allocated o (mem d) ->
  agent_progress o <> agent_results o ->
  slots d !! event_slot ev = Some pending ->
  settled_by o ev (on_event o ev d).
Proof.
  intros Hal Hne Hsl. split.
  - by rewrite on_event_slots, list_lookup_alter_eq, Hsl.
  - apply (late_event_status o ev d pending Hal Hne Hsl). by destruct ev.
Qed.

(** An event of the branch that has settled already does nothing. *)
Lemma same_branch_idle ev ev' d :
  slots d !! event_slot ev = Some (slot_step o ev pending) ->
  event_slot ev' = event_slot ev ->
  same_branch ev ev' ->
  on_event o ev' d = d.
Proof.
  intros Hsl Hslot Hsame. unfold on_event. rewrite Hslot, Hsl.
  destruct ev, ev'; simpl in Hsame; try done; reflexivity.
Qed.

Lemma settled_keep ev ev' d :
  settled_by o ev d ->
  (event_slot ev' = event_slot ev -> same_branch ev ev') ->
  settled_by o ev (on_event o ev' d).
Proof.
  intros [Hsl Hst] Hsame.
  destruct (decide (event_slot ev' = event_slot ev)) as [Heq | Hne].
  - by rewrite (same_branch_idle ev ev' d Hsl Heq (Hsame Heq)).
  - split.
    + by rewrite on_event_slots, list_lookup_alter_ne.
    + unfold progress_of. rewrite on_event_other_key by lia. done.
Qed.

Lemma settled_run ev evs : forall d,
  settled_by o ev d -> other_branch_silent ev evs -> settled_by o ev (run_events o evs d).
Proof.
  induction evs as [| ev' evs IH]; intros d Hset Hsilent; [done |].
  rewrite run_events_cons. apply IH.
  - apply settled_keep; [done |]. intros Heq. apply Hsilent; [by left | done].
  - intros e Hin. apply Hsilent. by right.
Qed.

Lemma single_branch_run ev evs : forall d,
  allocated o (mem d) ->
  agent_progress o <> agent_results o ->
  slots d !! event_slot ev = Some pending ->
  first_event (event_slot ev) evs = Some ev ->
  other_branch_silent ev evs ->
  settled_by o ev (run_events o evs d).
Proof.
  induction evs as [| ev' evs IH]; intros d Hal Hne Hsl Hfirst Hsilent; [done |].
  rewrite run_events_cons. simpl in Hfirst.
  destruct (decide (event_slot ev' = event_slot ev)) as [Heq | Hother].
  - injection Hfirst as ->. apply settled_run.
    + by apply settle_step.
    + intros e Hin. apply Hsilent. by right.
  - apply IH; try done.
    + unfold allocated. by rewrite on_event_maps_length.
    + by apply pending_step.
    + intros e Hin. apply Hsilent. by right.
Qed.

Lemma settled_outcome ev d :
  settled_by o ev d -> outcome_of d (event_slot ev) = Some (event_outcome o ev).
Proof. intros [Hsl _]. unfold outcome_of. rewrite Hsl. by destruct ev. Qed.

End OneBranch.

(** ** A slot with one branch only, among callbacks of earlier calls *)

Section Among.

Variable w : world.
Variable o : TaskOrchestrator.

Lemma run_macrotasks_cons t ts d :
  run_macrotasks o (t :: ts) d = run_macrotasks o ts (on_macrotask o t d).
Proof. reflexivity. Qed.

Lemma own_events_app ts1 ts2 : own_events (ts1 ++ ts2) = own_events ts1 ++ own_events ts2.
Proof. apply omap_app. Qed.

(** With no callback of an earlier call the macrotasks are the events. *)
Lemma run_macrotasks_own evs : forall d,
  run_macrotasks o (Own <$> evs) d = run_events o evs d.
Proof.
  induction evs as [| ev evs IH]; intros d; [done |].
  rewrite fmap_cons, run_macrotasks_cons, run_events_cons. apply IH.
Qed.

Lemma await_all_among_own sched : forall d,
  await_all_among o (Own <$> sched) d
  = let '(res, d', late) := await_all o sched d in (res, d', Own <$> late).
Proof.
  induction sched as [| ev sched IH]; intros d; simpl.
  - by destruct (mapM race (slots d)).
  - destruct (mapM race (slots d)); [done |]. apply IH.
Qed.

(** [orchestrate_among] is [orchestrate] when no callback of an earlier
    call runs. *)
Lemma orchestrate_among_own userInput sched s :
  orchestrate_among w o userInput (Own <$> sched) s = orchestrate w o userInput sched s.
Proof.
  unfold orchestrate_among, orchestrate.
  destruct (orchestrate_begin w o userInput s) as [launched s1].
  rewrite await_all_among_own.
  destruct (await_all o sched _) as [[[agentResults |] d] late]; [| done].
  destruct (orchestrate_end w o agentResults (mem d)) as [[sorted final] s2].
  by rewrite run_macrotasks_own.
Qed.

(** The promises are those that the events of the call leave. *)
Lemma run_macrotasks_slots ts : forall d d',
  slots d = slots d' ->
  slots (run_macrotasks o ts d) = slots (run_events o (own_events ts) d').
Proof.
  induction ts as [| [ev | ev] ts IH]; intros d d' Hsl; [done | |].
  - rewrite run_macrotasks_cons. change (own_events (Own ev :: ts)) with (ev :: own_events ts).
    rewrite run_events_cons. apply IH. simpl. by rewrite !on_event_slots, Hsl.
  - rewrite run_macrotasks_cons. change (own_events (Earlier ev :: ts)) with (own_events ts).
    by apply IH.
Qed.

Lemma on_macrotask_maps_length t d :
  length (maps (mem (on_macrotask o t d))) = length (maps (mem d)).
Proof.
  destruct t as [ev | ev]; simpl; [apply on_event_maps_length |].
  destruct (callback_store o ev (mem d)) as (status & result & ->).
  apply update_maps_length.
Qed.

Lemma await_all_among_spec ts : forall d res d' late,
  await_all_among o ts d = (res, d', late) ->
  exists ran,
    ts = ran ++ late /\ d' = run_macrotasks o ran d
    /\ mapM race (slots d') = res /\ (res = None -> late = []).
Proof.
  induction ts as [| t ts IH]; intros d res d' late; simpl.
  - destruct (mapM race (slots d)) as [rs |] eqn:Hm; intros [= <- <- <-];
      exists []; by rewrite ?Hm.
  - destruct (mapM race (slots d)) as [rs |] eqn:Hm.
    + intros [= <- <- <-]. exists []. by rewrite Hm.
    + intros Hrest. destruct (IH _ _ _ _ Hrest) as (ran & -> & -> & Hres & Hlate).
      exists (t :: ran). by rewrite run_macrotasks_cons.
Qed.

Lemma orchestrate_among_eq userInput ts s :
  orchestrate_among w o userInput ts s
  = match await_all_among o ts
            {| mem := snd (orchestrate_begin w o userInput s);
               slots := replicate (length (subtasks_of w o userInput)) pending |} with
    | (Some agentResults, d, late) =>
        {| returned := Some (snd (fst (orchestrate_end w o agentResults (mem d))));
           handed := Some (fst (fst (orchestrate_end w o agentResults (mem d))));
           after := run_macrotasks o late
                      {| mem := snd (orchestrate_end w o agentResults (mem d));
                         slots := slots d |} |}
    | (None, d, _) => {| returned := None; handed := None; after := d |}
    end.
Proof.
  unfold orchestrate_among. rewrite <- (orchestrate_begin_slots w o userInput s).
  destruct (orchestrate_begin w o userInput s) as [launched s1]. cbn [fst snd].
  destruct (await_all_among o ts _) as [[[agentResults |] d] late]; [| reflexivity].
  by destruct (orchestrate_end w o agentResults (mem d)) as [[sorted final] s2].
Qed.

(** A callback of an earlier call for another slot changes nothing for
    the slot. *)
Lemma earlier_keeps ev ev' d :
  settled_by o ev d ->
  event_slot ev' <> event_slot ev ->
  settled_by o ev (on_macrotask o (Earlier ev') d).
Proof.
  intros [Hsl Hst] Hne. split; [done |]. simpl.
  destruct (callback_store o ev' (mem d)) as (status & result & ->).
  unfold progress_of. rewrite update_other_key by lia. done.
Qed.

Lemma settled_among ev ts : forall d,
  settled_by o ev d ->
  other_branch_silent ev (own_events ts) ->
  earlier_silent (event_slot ev) ts ->
  settled_by o ev (run_macrotasks o ts d).
Proof.
  induction ts as [| [ev' | ev'] ts IH]; intros d Hset Hsilent Hearlier; [done | |];
    apply Forall_cons in Hearlier as [Hnow Hearlier]; rewrite run_macrotasks_cons;
    apply IH; try done.
  - apply settled_keep; [done |]. intros Heq. apply Hsilent; [by left | done].
  - intros e Hin. apply Hsilent. by right.
  - by apply earlier_keeps.
Qed.

Lemma single_branch_among ev ts : forall d,
  allocated o (mem d) ->
  agent_progress o <> agent_results o ->
  slots d !! event_slot ev = Some pending ->
  first_event (event_slot ev) (own_events ts) = Some ev ->
  other_branch_silent ev (own_events ts) ->
  earlier_silent (event_slot ev) ts ->
  settled_by o ev (run_macrotasks o ts d).
Proof.
  induction ts as [| [ev' | ev'] ts IH]; intros d Hal Hne Hsl Hfirst Hsilent Hearlier;
    [done | |]; apply Forall_cons in Hearlier as [Hnow Hearlier];
    rewrite run_macrotasks_cons.
  - change (own_events (Own ev' :: ts)) with (ev' :: own_events ts) in Hfirst, Hsilent.
    simpl in Hfirst.
    destruct (decide (event_slot ev' = event_slot ev)) as [Heq | Hother].
    + injection Hfirst as ->. apply settled_among; [| | done].
      * by apply settle_step.
      * intros e Hin. apply Hsilent. by right.
    + apply IH; try done.
      * unfold allocated. by rewrite on_macrotask_maps_length.
      * by apply pending_step.
      * intros e Hin. apply Hsilent. by right.
  - change (own_events (Earlier ev' :: ts)) with (own_events ts) in Hfirst, Hsilent.
    apply IH; try done.
    unfold allocated. by rewrite on_macrotask_maps_length.
Qed.

(** X10. A slot of which one branch only runs, while callbacks that
    earlier calls have left may run: when the first event of a launched
    slot is [ev], the call has no event of the other branch for that slot
    (the agent settles and the timer has not fired yet, or the timer fires
    and the agent never settles), and no callback of an earlier call runs
    for that slot, then at the end the status of the slot is the one [ev]
    writes and its outcome the one [ev] produces; status and outcome
    agree. Callbacks of earlier calls for the other slots do not matter. *)
Theorem one_branch_status_matches_outcome userInput ts s ev :
  allocated o s ->
  agent_progress o <> agent_results o ->
  (event_slot ev < length (subtasks_of w o userInput))%nat ->
  first_event (event_slot ev) (own_events ts) = Some ev ->
  other_branch_silent ev (own_events ts) ->
  earlier_silent (event_slot ev) ts ->
  progress_of o (mem (after (orchestrate_among w o userInput ts s)))
    (Z.of_nat (event_slot ev))
  = Some (event_status ev)
  /\ outcome_of (after (orchestrate_among w o userInput ts s)) (event_slot ev)
     = Some (event_outcome o ev).
Proof.
  intros Hal Hne Hi Hfirst Hsilent Hearlier.
  assert (Hfinal : settled_by o ev (after (orchestrate_among w o userInput ts s))).
  { rewrite orchestrate_among_eq.
    set (d0 := {| mem := snd (orchestrate_begin w o userInput s);
                  slots := replicate (length (subtasks_of w o userInput)) pending |}).
    assert (Hal0 : allocated o (mem d0)).
    { unfold allocated. cbn [d0 mem]. by rewrite orchestrate_begin_maps_length. }
    assert (Hsl0 : slots d0 !! event_slot ev = Some pending)
      by (by apply lookup_replicate_2).
    destruct (await_all_among o ts d0) as [[[agentResults |] d] late] eqn:Hawait;
      cbn [after].
    - destruct (await_all_among_spec _ _ _ _ _ Hawait) as (ran & -> & -> & Hres & _).
      rewrite own_events_app in Hfirst, Hsilent.
      apply Forall_app in Hearlier as [Hearlier1 Hearlier2].
      assert (Hran : first_event (event_slot ev) (own_events ran) = Some ev).
      { rewrite (run_macrotasks_slots ran d0 d0 eq_refl) in Hres.
        destruct (races_settled_first_events o _ _ _ _ _ Hres Hi) as [ev0 Hev0].
        rewrite (first_event_app _ _ (own_events late) _ Hev0) in Hfirst.
        by rewrite Hev0. }
      assert (Hd : settled_by o ev (run_macrotasks o ran d0)).
      { apply single_branch_among; try done.
        intros e Hin. apply Hsilent, in_or_app. by left. }
      apply settled_among; [| | done].
      + destruct Hd as [Hsl Hst]. split; [done |]. cbn [mem].
        unfold progress_of. rewrite orchestrate_end_other_key by lia. done.
      + intros e Hin. apply Hsilent, in_or_app. by right.
    - destruct (await_all_among_spec _ _ _ _ _ Hawait) as (ran & -> & -> & _ & Hlate).
      rewrite (Hlate eq_refl), app_nil_r in Hfirst, Hsilent, Hearlier.
      by apply single_branch_among. }
  split; [apply Hfinal | by apply settled_outcome].
Qed.

End Among.

Lemma one_branch_status_matches_outcome_witness :
  progress_of (Demo.orch 3 5)
    (mem (after (orchestrate_among Demo.up (Demo.orch 3 5) "q" Demo4.second_silent
                   (Demo.start 3 5))))
    (Z.of_nat 1)
  = Some "FAILED: Timeout"
  /\ outcome_of
       (after (orchestrate_among Demo.up (Demo.orch 3 5) "q" Demo4.second_silent
                 (Demo.start 3 5)))
       1
     = Some (event_outcome (Demo.orch 3 5) (TimerFired 1)).
Proof.
  apply (one_branch_status_matches_outcome Demo.up (Demo.orch 3 5) "q" Demo4.second_silent
           (Demo.start 3 5) (TimerFired 1)).
  - split; vm_compute; lia.
  - vm_compute. lia.
  - vm_compute. lia.
  - reflexivity.
  - intros e Hin Hslot. simpl in Hin.
    destruct Hin as [<- | [<- | [<- | [<- | [<- | []]]]]]; simpl in Hslot; try lia; exact I.
  - repeat constructor; simpl; lia.
Defined.

(** The timer of an earlier call, which was never cleared, fires for a
    slot whose agent has answered in the running call: the slot is shown
    as failed by timeout, and its outcome is the success. *)
Example earlier_timer_overwrites_status :
  let r := orchestrate_among Demo.up (Demo.orch 2 5) "q" Demo4.old_timer (Demo.start 2 5) in
  progress_of (Demo.orch 2 5) (mem (after r)) 0 = Some "FAILED: Timeout"
  /\ status <$> outcome_of (after r) 0 = Some success
  /\ timeoutPromise <$> slots (after r) !! 0%nat = Some None.
Proof. vm_compute. done. Qed.

(** * The command-line interface *)

(** ** [format_time] *)

Example format_time_seconds : format_time (59999 # 1000) = "59S".
Proof. reflexivity. Qed.

Example format_time_minutes : format_time (125500 # 1000) = "2M5S".
Proof. reflexivity. Qed.

Example format_time_hours : format_time (7325000 # 1000) = "2H2M".
Proof. reflexivity. Qed.

Lemma floor_div (s : Q) (k : positive) :
  Number.floor (s / inject_Z (Zpos k)) = Number.floor s / Zpos k.
Proof.
  destruct s as [n d].
  unfold Number.floor, Qdiv, Qmult, Qinv, Qfloor, inject_Z. simpl.
  rewrite Z.mul_1_r, Pos2Z.inj_mul, Z.div_div by lia. reflexivity.
Qed.

Lemma floor_rem (s : Q) (k : positive) :
  (0 <= s)%Q ->
  Number.floor (Number.rem s (inject_Z (Zpos k))) = Number.floor s mod Zpos k.
Proof.
  destruct s as [n d]. unfold Qle. cbn [Qnum Qden]. intros Hn.
  unfold Number.floor, Number.rem, Number.trunc, Qminus, Qplus, Qopp, Qdiv, Qmult, Qinv,
    Qfloor, inject_Z.
  cbn [Qnum Qden]. rewrite ?Pos.mul_1_r, ?Z.mul_1_r.
  rewrite Z.quot_div_nonneg by lia.
  rewrite Pos2Z.inj_mul, <- Z.div_div by lia.
  rewrite Z.div_add by lia.
  rewrite Z.mod_eq by lia. lia.
Qed.

Lemma floor_at_least (s : Q) (z : Z) : (inject_Z z <= s)%Q -> z <= Number.floor s.
Proof. intros H. rewrite <- (Qfloor_Z z). by apply Qfloor_resp_le. Qed.

Lemma floor_below (s : Q) (z : Z) : (s < inject_Z z)%Q -> Number.floor s < z.
Proof.
  intros H. rewrite Zlt_Qlt. eapply Qle_lt_trans; [apply Qfloor_le | done].
Qed.

(** X11. From one minute to one hour, [format_time] writes the minutes
    and the seconds of the whole seconds elapsed: the minutes are between 1
    and 59, the seconds between 0 and 59, and together they are the
    elapsed time rounded down to a second. *)
Theorem format_time_minutes_and_seconds (seconds : Q) :
  (60 <= seconds)%Q ->
  (seconds < 3600)%Q ->
  exists m sec : Z,
    format_time seconds = pretty m +:+ "M" +:+ pretty sec +:+ "S"
    /\ 1 <= m <= 59 /\ 0 <= sec <= 59
    /\ 60 * m + sec = Qfloor seconds.
Proof.
  intros Hlo Hhi. unfold format_time.
  destruct (Qlt_le_dec seconds 60) as [Hlt | _];
    [exfalso; by eapply Qlt_not_le |].
  destruct (Qlt_le_dec seconds 3600) as [_ | Hge];
    [| exfalso; by eapply Qlt_not_le].
  assert (Hnonneg : (0 <= seconds)%Q) by (eapply Qle_trans; [| exact Hlo]; done).
  pose proof (floor_at_least seconds 60 Hlo) as Hf60.
  pose proof (floor_below seconds 3600 Hhi) as Hf3600.
  change 60%Q with (inject_Z (Zpos 60)).
  rewrite floor_div, floor_rem by done.
  unfold Number.floor in *.
  exists (Qfloor seconds / 60), (Qfloor seconds mod 60).
  split; [done |].
  pose proof (Z.div_mod (Qfloor seconds) 60 ltac:(lia)).
  pose proof (Z.mod_pos_bound (Qfloor seconds) 60 ltac:(lia)).
  assert (1 <= Qfloor seconds / 60) by (apply Z.div_le_lower_bound; lia).
  assert (Qfloor seconds / 60 < 60) by (apply Z.div_lt_upper_bound; lia).
  lia.
Qed.

Lemma format_time_minutes_and_seconds_witness :
  exists m sec : Z,
    format_time (125500 # 1000) = pretty m +:+ "M" +:+ pretty sec +:+ "S"
    /\ 1 <= m <= 59 /\ 0 <= sec <= 59
    /\ 60 * m + sec = Qfloor (125500 # 1000).
Proof.
  apply (format_time_minutes_and_seconds (125500 # 1000)).
  - unfold Qle. simpl. lia.
  - unfold Qlt. simpl. lia.
Defined.

(** X12. From one hour on, [format_time] writes the hours and the minutes
    and drops the seconds: the minutes are between 0 and 59, and hours and
    minutes together are the elapsed time rounded down to a minute. *)
Theorem format_time_hours_and_minutes (seconds : Q) :
  (3600 <= seconds)%Q ->
  exists h m : Z,
    format_time seconds = pretty h +:+ "H" +:+ pretty m +:+ "M"
    /\ 1 <= h /\ 0 <= m <= 59
    /\ 3600 * h + 60 * m <= Qfloor seconds < 3600 * h + 60 * m + 60.
Proof.
  intros Hlo. unfold format_time.
  assert (H60 : (60 <= seconds)%Q) by (eapply Qle_trans; [| exact Hlo]; done).
  destruct (Qlt_le_dec seconds 60) as [Hlt | _];
    [exfalso; by eapply Qlt_not_le |].
  destruct (Qlt_le_dec seconds 3600) as [Hlt | _];
    [exfalso; by eapply Qlt_not_le |].
  assert (Hnonneg : (0 <= seconds)%Q) by (eapply Qle_trans; [| exact Hlo]; done).
  pose proof (floor_at_least seconds 3600 Hlo) as Hf.
  change 3600%Q with (inject_Z (Zpos 3600)). change 60%Q with (inject_Z (Zpos 60)).
  rewrite !floor_div, floor_rem by done.
  unfold Number.floor in *.
  exists (Qfloor seconds / 3600), ((Qfloor seconds mod 3600) / 60).
  split; [done |].
  pose proof (Z.div_mod (Qfloor seconds) 3600 ltac:(lia)).
  pose proof (Z.mod_pos_bound (Qfloor seconds) 3600 ltac:(lia)).
  pose proof (Z.div_mod (Qfloor seconds mod 3600) 60 ltac:(lia)).
  pose proof (Z.mod_pos_bound (Qfloor seconds mod 3600) 60 ltac:(lia)).
  assert (1 <= Qfloor seconds / 3600) by (apply Z.div_le_lower_bound; lia).
  assert (0 <= (Qfloor seconds mod 3600) / 60) by (apply Z.div_pos; lia).
  assert ((Qfloor seconds mod 3600) / 60 < 60) by (apply Z.div_lt_upper_bound; lia).
  lia.
Qed.

Lemma format_time_hours_and_minutes_witness :
  exists h m : Z,
    format_time (7325000 # 1000) = pretty h +:+ "H" +:+ pretty m +:+ "M"
    /\ 1 <= h /\ 0 <= m <= 59
    /\ 3600 * h + 60 * m <= Qfloor (7325000 # 1000) < 3600 * h + 60 * m + 60.
Proof.
  apply (format_time_hours_and_minutes (7325000 # 1000)).
  unfold Qle. simpl. lia.
Defined.

(** * The HTTP endpoint *)

Section EndpointFacts.

Import Endpoint.

(** X13. [extractUserInput] returns the content of the last message of
    role [user], whatever comes before and after it. *)
Theorem extractUserInput_last_user (request : OpenAIRequest) pre m post :
  messages request = Some (pre ++ m :: post) ->
  role m = user ->
  Forall (fun m' => role m' <> user) post ->
  extractUserInput request = Some (content m).
Proof.
  intros Hmsgs Hm Hpost. unfold extractUserInput. rewrite Hmsgs.
  assert (Hlast : last (filter (fun m => role m = user) (pre ++ m :: post)) = Some m).
  { rewrite filter_app, filter_cons_True by done.
    assert (Hnone : filter (fun m => role m = user) post = []).
    { clear Hmsgs. induction Hpost as [| m' post Hm' Hpost IH]; [done |].
      by rewrite filter_cons_False. }
    rewrite Hnone. apply last_snoc. }
  rewrite Hlast. by destruct pre.
Qed.

(** X14. [extractUserInput] returns [null] exactly when [messages] is
    absent or holds no message of role [user]. *)
Theorem extractUserInput_null (request : OpenAIRequest) :
  extractUserInput request = None
  <-> match messages request with
      | None => True
      | Some msgs => Forall (fun m => role m <> user) msgs
      end.
Proof.
  unfold extractUserInput. destruct (messages request) as [msgs |]; [| done].
  assert (Hfilter : filter (fun m => role m = user) msgs = []
                    <-> Forall (fun m => role m <> user) msgs).
  { induction msgs as [| m msgs IH]; [by split |].
    destruct (decide (role m = user)) as [Hm | Hm].
    - rewrite filter_cons_True by done. split; [done |].
      intros Hall. apply Forall_cons in Hall as [Hno _]. done.
    - rewrite filter_cons_False by done. rewrite IH. split.
      + intros Hall. by constructor.
      + intros Hall. by apply Forall_cons in Hall as [_ Hall]. }
  destruct msgs as [| m0 msgs0]; [by split |].
  destruct (last (filter (fun m => role m = user) (m0 :: msgs0))) as [m |] eqn:Hlast.
  - split; [done |]. intros Hall. apply Hfilter in Hall. by rewrite Hall in Hlast.
  - split; [| done]. intros _. apply Hfilter.
    by destruct (filter (fun m => role m = user) (m0 :: msgs0)) using rev_ind;
      [| rewrite last_snoc in Hlast].
Qed.

(** X15. A request whose last user message is empty, or that has none, is
    answered 400, whatever its earlier messages are, and nothing is run. *)
Theorem handleRequest_without_user_input e w o req sched s text openAIRequest :
  method req = "POST" ->
  url req = "/v1/chat/completions" ->
  body req = Resolved text ->
  parse_body e text = inr openAIRequest ->
  extractUserInput openAIRequest = None \/ extractUserInput openAIRequest = Some "" ->
  handleRequest e w o req sched s
  = (Some (sendError 400 "No valid user message found in request body."), s).
Proof.
  intros Hmethod Hurl Hbody Hparse Hinput. unfold handleRequest.
  rewrite Hmethod, Hurl, Hbody, Hparse. simpl.
  by destruct Hinput as [-> | ->].
Qed.

(** X16. Whatever the request, a response other than 200 leaves the store
    as it was: no agent has been run and no status written. *)
Theorem handleRequest_runs_nothing_unless_200 e w o req sched s resp :
  fst (handleRequest e w o req sched s) = Some resp ->
  statusCode resp <> 200 ->
  snd (handleRequest e w o req sched s) = s.
Proof.
  unfold handleRequest.
  destruct (String.eqb (method req) "OPTIONS"); [done |].
  destruct (_ && _); [| done].
  destruct (body req) as [text | message]; [| done].
  destruct (parse_body e text) as [message | openAIRequest]; [done |].
  destruct (extractUserInput openAIRequest) as [[| c userInput] |]; try done.
  destruct (returned _); [| done].
  simpl. by intros [= <-].
Qed.

(** [Refactored.orchestrate], with the results of its first part spelled
    out. *)
Lemma refactored_orchestrate_eq w o userInput sched s :
  Refactored.orchestrate w o userInput sched s
  = match await_all o sched
            {| mem := snd (orchestrate_begin w o userInput s);
               slots := replicate (length (subtasks_of w o userInput)) pending |} with
    | (Some agentResults, d, late) =>
        {| returned :=
             Some (snd (fst (Refactored.orchestrate_end w o agentResults (mem d))));
           handed :=
             Some (fst (fst (Refactored.orchestrate_end w o agentResults (mem d))));
           after := run_events o late
                      {| mem := snd (Refactored.orchestrate_end w o agentResults (mem d));
                         slots := slots d |} |}
    | (None, d, _) => {| returned := None; handed := None; after := d |}
    end.
Proof.
  unfold Refactored.orchestrate. rewrite <- (orchestrate_begin_slots w o userInput s).
  destruct (orchestrate_begin w o userInput s) as [launched s1]. cbn [fst snd].
  destruct (await_all o sched _) as [[[agentResults |] d] late]; [| reflexivity].
  by destruct (Refactored.orchestrate_end w o agentResults (mem d)) as [[sorted final] s2].
Qed.

(** What [aggregate_results] of the second copy returns does not depend
    on the store. *)
Lemma refactored_aggregate_value w o outcomes s s' :
  fst (Refactored.aggregate_results w o outcomes s)
  = fst (Refactored.aggregate_results w o outcomes s').
Proof.
  unfold Refactored.aggregate_results. destruct (decide _); [reflexivity |].
  unfold Refactored._aggregate_consensus.
  destruct (map response _) as [| r1 [| r2 rest]]; try reflexivity;
    unfold bind, agent_run, ret; by destruct (synthesis_agent w _).
Qed.

(** X17. A response 200 always carries, as the one message of role
    [assistant], the string that [orchestrate] returned for the last user
    message of the request. The [orchestrate] that the handler calls is
    the one of the class in src/make_it_heavy.ts, so the string is what
    [aggregate_results] of that copy makes of the outcomes of the
    dispatch. *)
Theorem handleRequest_200_carries_result e w o req sched s resp :
  fst (handleRequest e w o req sched s) = Some resp ->
  statusCode resp = 200 ->
  exists text openAIRequest userInput outcomes result,
    body req = Resolved text
    /\ parse_body e text = inr openAIRequest
    /\ extractUserInput openAIRequest = Some userInput
    /\ handed (Refactored.orchestrate w o userInput sched s) = Some outcomes
    /\ returned (Refactored.orchestrate w o userInput sched s) = Some result
    /\ (forall s', fst (Refactored.aggregate_results w o outcomes s') = result)
    /\ sent resp = Completion (formatOpenAIResponse e o result)
    /\ Response.message <$> Response.choices (formatOpenAIResponse e o result)
       = [{| role := assistant; content := result |}].
Proof.
  unfold handleRequest.
  destruct (String.eqb (method req) "OPTIONS"); [by intros [= <-] |].
  destruct (_ && _); [| by intros [= <-]].
  destruct (body req) as [text | message]; [| by intros [= <-]].
  destruct (parse_body e text) as [message | openAIRequest] eqn:Hparse; [by intros [= <-] |].
  destruct (extractUserInput openAIRequest) as [[| c userInput] |] eqn:Hinput;
    try by intros [= <-].
  pose proof (refactored_orchestrate_eq w o (String c userInput) sched s) as Heq.
  destruct (await_all o sched _) as [[[agentResults |] d] late];
    rewrite Heq; cbn [returned after]; [| done].
  simpl. intros [= <-] _.
  exists text, openAIRequest, (String c userInput),
    (fst (fst (Refactored.orchestrate_end w o agentResults (mem d)))),
    (snd (fst (Refactored.orchestrate_end w o agentResults (mem d)))).
  rewrite Heq. cbn [returned handed].
  repeat (split; [done |]). split; [| done].
  intros s'. unfold Refactored.orchestrate_end. repeat (rewrite bind_eq; cbv beta).
  unfold ret. cbn [fst snd]. apply refactored_aggregate_value.
Qed.

End EndpointFacts.

Lemma extractUserInput_last_user_witness :
  Endpoint.extractUserInput
    {| Endpoint.messages := Some Demo3.conversation; Endpoint.model := None |}
  = Some "second question".
Proof.
  apply (extractUserInput_last_user
           {| Endpoint.messages := Some Demo3.conversation; Endpoint.model := None |}
           [ {| Endpoint.role := Endpoint.system; Endpoint.content := "be brief" |};
             {| Endpoint.role := Endpoint.user; Endpoint.content := "first question" |};
             {| Endpoint.role := Endpoint.assistant; Endpoint.content := "an answer" |} ]
           {| Endpoint.role := Endpoint.user; Endpoint.content := "second question" |}
           [ {| Endpoint.role := Endpoint.assistant; Endpoint.content := "draft" |} ]).
  - reflexivity.
  - reflexivity.
  - repeat constructor. discriminate.
Defined.

Lemma handleRequest_without_user_input_witness :
  Endpoint.handleRequest Demo3.e Demo.up (Demo.orch 2 5) (Demo3.post "empty")
    Demo2.both_answer (Demo.start 2 5)
  = (Some (Endpoint.sendError 400 "No valid user message found in request body."),
     Demo.start 2 5).
Proof.
  apply (handleRequest_without_user_input Demo3.e Demo.up (Demo.orch 2 5)
           (Demo3.post "empty") Demo2.both_answer (Demo.start 2 5) "empty"
           {| Endpoint.messages := Some Demo3.emptied; Endpoint.model := None |});
    try reflexivity.
  right. reflexivity.
Defined.

Lemma handleRequest_runs_nothing_unless_200_witness :
  snd (Endpoint.handleRequest Demo3.e Demo.up (Demo.orch 2 5) (Demo3.post "{")
         Demo2.both_answer (Demo.start 2 5))
  = Demo.start 2 5.
Proof.
  apply (handleRequest_runs_nothing_unless_200 Demo3.e Demo.up (Demo.orch 2 5)
           (Demo3.post "{") Demo2.both_answer (Demo.start 2 5)
           (Endpoint.sendError 500 "Internal Server Error: Unexpected token")).
  - reflexivity.
  - simpl. lia.
Defined.

(** Two agents answer and the synthesis agent fails: the response 200
    carries the two answers under their labels, with no blank line
    between them. *)
Lemma handleRequest_200_carries_result_witness :
  exists text openAIRequest userInput outcomes result,
    Endpoint.body (Demo3.post "ask") = Resolved text
    /\ Endpoint.parse_body Demo3.e text = inr openAIRequest
    /\ Endpoint.extractUserInput openAIRequest = Some userInput
    /\ handed (Refactored.orchestrate Demo.down (Demo.orch 2 5) userInput Demo2.both_answer
                 (Demo.start 2 5)) = Some outcomes
    /\ returned (Refactored.orchestrate Demo.down (Demo.orch 2 5) userInput Demo2.both_answer
                   (Demo.start 2 5)) = Some result
    /\ (forall s',
          fst (Refactored.aggregate_results Demo.down (Demo.orch 2 5) outcomes s') = result)
    /\ Endpoint.sent
         (Endpoint.sendJSON 200
            (Endpoint.Completion
               (Endpoint.formatOpenAIResponse Demo3.e (Demo.orch 2 5) Demo3.labelled)))
       = Endpoint.Completion (Endpoint.formatOpenAIResponse Demo3.e (Demo.orch 2 5) result)
    /\ Endpoint.Response.message
         <$> Endpoint.Response.choices
               (Endpoint.formatOpenAIResponse Demo3.e (Demo.orch 2 5) result)
       = [{| Endpoint.role := Endpoint.assistant; Endpoint.content := result |}].
Proof.
  apply (handleRequest_200_carries_result Demo3.e Demo.down (Demo.orch 2 5)
           (Demo3.post "ask") Demo2.both_answer (Demo.start 2 5)
           (Endpoint.sendJSON 200
              (Endpoint.Completion
                 (Endpoint.formatOpenAIResponse Demo3.e (Demo.orch 2 5) Demo3.labelled)))).
  - vm_compute. reflexivity.
  - reflexivity.
Defined.

(** * Loading the configuration *)

Section LoaderFacts.

Import Loader.

(** X18. [loadConfig] returns a configuration exactly when the file can be
    read, parses to a document, and the document has both the
    [orchestrator] and the [openrouter] section; in every other case it
    throws, and always with the same message: the reason, also the message
    about the missing section, does not reach the caller. *)
Theorem loadConfig_returns_or_throws_generic file yaml_load :
  ((exists c, loadConfig file yaml_load = Returned c)
   <-> exists fileContents config,
         file = Returned fileContents
         /\ yaml_load fileContents = Returned (Some config)
         /\ is_Some (Partial.orchestrator config)
         /\ is_Some (Partial.openrouter config))
  /\ forall message, loadConfig file yaml_load = Thrown message -> message = generic_message.
Proof.
  unfold loadConfig, loadConfig_try. split.
  - split.
    + intros [c Hc]. destruct file as [fileContents | m]; [| done].
      destruct (yaml_load fileContents) as [[config |] | m] eqn:Hy; try done.
      exists fileContents, config.
      destruct (Partial.orchestrator config), (Partial.openrouter config); try done; eauto.
    + intros (fileContents & config & -> & -> & [orc ->] & [opr ->]). eauto.
  - intros message.
    destruct file as [fileContents | m]; [| by intros [= <-]].
    destruct (yaml_load fileContents) as [[config |] | m]; try by intros [= <-].
    destruct (Partial.orchestrator config), (Partial.openrouter config);
      try done; by intros [= <-].
Qed.

(** X19. A document that states every setting is loaded as it is: nothing
    is replaced by a default. *)
Theorem loadConfig_complete_document fileContents yaml_load c :
  yaml_load fileContents = Returned (Some (complete c)) ->
  loadConfig (Returned fileContents) yaml_load = Returned c.
Proof.
  intros Hy. unfold loadConfig, loadConfig_try. rewrite Hy.
  by destruct c as [[m [p h]] opr orc].
Qed.

(** X20. A document with both sections and no [app] member is loaded with
    the defaults: the command-line mode, port 8080 and host 127.0.0.1; the
    two sections are taken as they are. *)
Theorem loadConfig_defaults fileContents yaml_load orc opr :
  yaml_load fileContents
  = Returned (Some {| Partial.app := None;
                      Partial.openrouter := Some opr;
                      Partial.orchestrator := Some orc |}) ->
  loadConfig (Returned fileContents) yaml_load
  = Returned {| app := {| mode := cli;
                          endpoint_settings := {| port := 8080; host := "127.0.0.1" |} |};
                openrouter := opr;
                orchestrator := orc |}.
Proof. intros Hy. unfold loadConfig, loadConfig_try. by rewrite Hy. Qed.

End LoaderFacts.

Lemma loadConfig_complete_document_witness :
  Loader.loadConfig (Loader.Returned "yaml")
    (fun _ => Loader.Returned (Some (Loader.complete Demo3.full)))
  = Loader.Returned Demo3.full.
Proof.
  apply (loadConfig_complete_document "yaml"
           (fun _ => Loader.Returned (Some (Loader.complete Demo3.full))) Demo3.full).
  reflexivity.
Defined.

Lemma loadConfig_defaults_witness :
  Loader.loadConfig (Loader.Returned "yaml")
    (fun _ => Loader.Returned
                (Some {| Loader.Partial.app := None;
                         Loader.Partial.openrouter := Some (Loader.openrouter Demo3.full);
                         Loader.Partial.orchestrator := Some (Loader.orchestrator Demo3.full) |}))
  = Loader.Returned
      {| Loader.app :=
           {| Loader.mode := Loader.cli;
              Loader.endpoint_settings :=
                {| Loader.port := 8080; Loader.host := "127.0.0.1" |} |};
         Loader.openrouter := Loader.openrouter Demo3.full;
         Loader.orchestrator := Loader.orchestrator Demo3.full |}.
Proof.
  apply (loadConfig_defaults "yaml"
           (fun _ => Loader.Returned
                (Some {| Loader.Partial.app := None;
                         Loader.Partial.openrouter := Some (Loader.openrouter Demo3.full);
                         Loader.Partial.orchestrator :=
                           Some (Loader.orchestrator Demo3.full) |}))
           (Loader.orchestrator Demo3.full) (Loader.openrouter Demo3.full)).
  reflexivity.
Defined.

(** * The display *)

(** X21. Every status that the callbacks of the dispatch write has its
    bar: COMPLETED the full bar, and a failure, whatever its message, and a
    timeout the bar of failures. *)
Theorem progress_bar_of_event_status (chalk : Chalk) (ev : event) :
  create_progress_bar chalk (event_status ev)
  = match ev with
    | WorkerResolved _ _ _ =>
        orange chalk "●" +:+ " " +:+ orange chalk (repeat_string ":" 70)
    | _ =>
        red chalk "✗" +:+ " " +:+ red chalk (repeat_string "×" 70)
    end.
Proof. destruct ev; reflexivity. Qed.

Section Shown.

Variable w : world.
Variable o : TaskOrchestrator.

Lemma event_status_not_empty ev : event_status ev <> "".
Proof. by destruct ev. Qed.

Lemma shown_after_event ev d k :
  allocated o (mem d) ->
  agent_progress o <> agent_results o ->
  (exists status, progress_of o (mem d) k = Some status /\ status <> "") ->
  exists status, progress_of o (mem (on_event o ev d)) k = Some status /\ status <> "".
Proof.
  intros Hal Hne Hshown.
  destruct (on_event_mem o ev d) as [-> | Hmem]; [done |].
  destruct (decide (k = Z.of_nat (event_slot ev))) as [-> | Hk].
  - exists (event_status ev). rewrite Hmem.
    split; [by apply callback_status | apply event_status_not_empty].
  - unfold progress_of. by rewrite on_event_other_key.
Qed.

Lemma shown_after_events evs : forall d k,
  allocated o (mem d) ->
  agent_progress o <> agent_results o ->
  (exists status, progress_of o (mem d) k = Some status /\ status <> "") ->
  exists status, progress_of o (mem (run_events o evs d)) k = Some status /\ status <> "".
Proof.
  induction evs as [| ev evs IH]; intros d k Hal Hne Hshown; [done |].
  rewrite run_events_cons. apply IH; [| done | by apply shown_after_event].
  unfold allocated. by rewrite on_event_maps_length.
Qed.

(** X22. Once a call of [orchestrate] has started its dispatch, every slot
    below the agent count has a status that is not empty, at every later
    moment of the schedule: the displays, which read
    [progress.get(i) || "QUEUED"] while it runs and
    [progress.get(i) || "COMPLETED"] at the end, show the status of the
    slot and not their default. *)
Theorem slot_status_always_present userInput sched s k dflt :
  allocated o s ->
  agent_progress o <> agent_results o ->
  0 <= k < num_agents o ->
  exists status,
    progress_of o (mem (after (orchestrate w o userInput sched s))) k = Some status
    /\ or_default (Some status) dflt = status.
Proof.
  intros Hal Hne Hk.
  assert (Hshown : exists status,
            progress_of o (mem (after (orchestrate w o userInput sched s))) k = Some status
            /\ status <> "").
  { rewrite orchestrate_eq.
    set (d0 := {| mem := snd (orchestrate_begin w o userInput s);
                  slots := replicate (length (subtasks_of w o userInput)) pending |}).
    assert (Hal0 : allocated o (mem d0)).
    { unfold allocated. cbn [d0 mem]. by rewrite orchestrate_begin_maps_length. }
    assert (H0 : exists status, progress_of o (mem d0) k = Some status /\ status <> "").
    { cbn [d0 mem]. destruct Hal as [Hp Hr].
      rewrite orchestrate_begin_progress by done.
      rewrite decide_False by lia.
      destruct (decide (0 <= k < _)); [by eexists |].
      rewrite decide_True by done. by eexists. }
    destruct (await_all o sched d0) as [[[agentResults |] d] late] eqn:Hawait; cbn [after].
    - destruct (await_all_spec _ _ _ _ _ _ Hawait) as (ran & -> & -> & _).
      apply shown_after_events; [| done |].
      + unfold allocated. cbn [mem].
        rewrite orchestrate_end_maps_length. by apply run_events_allocated.
      + cbn [mem]. unfold progress_of. rewrite orchestrate_end_other_key by lia.
        by apply shown_after_events.
    - destruct (await_all_spec _ _ _ _ _ _ Hawait) as (ran & _ & -> & _).
      by apply shown_after_events. }
  destruct Hshown as (status & Hst & Hnonempty). exists status. split; [done |].
  by destruct status.
Qed.

End Shown.

Lemma slot_status_always_present_witness :
  exists status,
    progress_of (Demo.orch 5 300)
      (mem (after (orchestrate Demo.down (Demo.orch 5 300) "q" Demo.four_answers
                     (Demo.start 5 300)))) 4
    = Some status
    /\ or_default (Some status) "COMPLETED" = status.
Proof.
  apply (slot_status_always_present Demo.down (Demo.orch 5 300) "q" Demo.four_answers
           (Demo.start 5 300) 4 "COMPLETED").
  - split; vm_compute; lia.
  - vm_compute. lia.
  - change (0 <= 4 < 5). lia.
Defined.

(** * More on the outcomes of a call *)

(** X23. With one to four agents configured and every timer firing in the
    end, [orchestrate] gives [aggregate_results] exactly one outcome for
    every slot from 0 to N - 1, in the order of the slots, each being the
    outcome of the first event of its slot. *)
Theorem one_outcome_per_slot_upto_four w o userInput sched s :
  1 <= num_agents o <= 4 ->
  (forall j, Z.of_nat j < num_agents o -> In (TimerFired j) sched) ->
  exists outcomes,
    handed (orchestrate w o userInput sched s) = Some outcomes
    /\ agent_id <$> outcomes = seqZ 0 (num_agents o)
    /\ forall i, Z.of_nat i < num_agents o ->
         exists ev, first_event i sched = Some ev
                    /\ outcomes !! i = Some (event_outcome o ev).
Proof.
  intros Hn Hfair.
  assert (Hlen : Z.of_nat (length (subtasks_of w o userInput)) = num_agents o).
  { unfold subtasks_of. apply decompose_task_length_upto4. lia. }
  destruct (orchestrate_returns w o userInput sched s) as (outcomes & final & Hh & _).
  { intros j Hj. apply Hfair. lia. }
  exists outcomes. split; [done |].
  destruct (orchestrate_hands_aligned _ _ _ _ _ _ Hh) as [-> Hat].
  split; [by rewrite Hlen |]. intros i Hi. apply Hat. lia.
Qed.

Lemma one_outcome_per_slot_upto_four_witness :
  exists outcomes,
    handed (orchestrate Demo.up (Demo.orch 3 5) "q" Demo.one_slow (Demo.start 3 5))
    = Some outcomes
    /\ agent_id <$> outcomes = seqZ 0 (num_agents (Demo.orch 3 5))
    /\ forall i, Z.of_nat i < num_agents (Demo.orch 3 5) ->
         exists ev, first_event i Demo.one_slow = Some ev
                    /\ outcomes !! i = Some (event_outcome (Demo.orch 3 5) ev).
Proof.
  apply (one_outcome_per_slot_upto_four Demo.up (Demo.orch 3 5) "q" Demo.one_slow
           (Demo.start 3 5)).
  - change (1 <= 3 <= 4). lia.
  - intros j Hj. change (Z.of_nat j < 3) in Hj.
    destruct j as [| [| [| j]]]; simpl; [tauto | tauto | tauto | lia].
Defined.

(** X24. What runs after [orchestrate] has returned changes neither the
    string it has returned nor the outcomes it has aggregated: a schedule
    and any extension of it give the same result. *)
Theorem result_fixed_at_return w o userInput sched extra s final :
  returned (orchestrate w o userInput sched s) = Some final ->
  returned (orchestrate w o userInput (sched ++ extra) s) = Some final
  /\ handed (orchestrate w o userInput (sched ++ extra) s)
     = handed (orchestrate w o userInput sched s).
Proof.
  rewrite !orchestrate_eq.
  destruct (await_all o sched _) as [[[results |] d] late] eqn:Hawait;
    cbn [returned]; [| done].
  rewrite (await_all_more o sched extra _ _ _ _ Hawait). cbn [returned handed]. by intros ->.
Qed.

Lemma result_fixed_at_return_witness :
  returned (orchestrate Demo.up (Demo.orch 2 5) "q"
              ([WorkerResolved 1 "b" 1500; WorkerResolved 0 "a" 2500]
               ++ [TimerFired 0; TimerFired 1]) (Demo.start 2 5))
  = Some "synthesis".
Proof.
  apply (result_fixed_at_return Demo.up (Demo.orch 2 5) "q"
           [WorkerResolved 1 "b" 1500; WorkerResolved 0 "a" 2500]
           [TimerFired 0; TimerFired 1] (Demo.start 2 5) "synthesis").
  reflexivity.
Defined.

(** * The name shown by the command-line interface *)

Section CleanName.

Import CLI.

Example clean_name_vendor : clean_name "moonshotai/kimi-k2-0711-preview" = "kimi-k2-0711".
Proof. reflexivity. Qed.

Example clean_name_short : clean_name "gpt-4" = "gpt-4".
Proof. reflexivity. Qed.

Example split_trailing : split "/" "a/b/" = ["a"; "b"; ""].
Proof. reflexivity. Qed.
















End CleanName.

(** * The second copy of the class *)

(** X26. With one successful outcome at most, [aggregate_results] of the
    second copy of the class (src/make_it_heavy.ts) does what the one of
    src/orchestrator.ts does: the fixed message for none, the response as
    it is for one, and no agent is run. *)
Theorem refactored_agrees_upto_one_success w o (outcomes : list AgentResult) s :
  (length (successful_responses outcomes) <= 1)%nat ->
  Refactored.aggregate_results w o outcomes s = aggregate_results w o outcomes s.
Proof.
  rewrite aggregate_results_by_successes.
  unfold Refactored.aggregate_results, successful_responses.
  destruct (filter _ outcomes) as [| r1 [| r2 rest]]; simpl; intros Hlen; [done | done | lia].
Qed.

Lemma refactored_agrees_upto_one_success_witness :
  Refactored.aggregate_results Demo.down (Demo.orch 3 5)
    [Demo.timed_out; Demo.answer "a"; Demo.failed] (Demo.start 3 5)
  = aggregate_results Demo.down (Demo.orch 3 5)
      [Demo.timed_out; Demo.answer "a"; Demo.failed] (Demo.start 3 5).
Proof.
  apply (refactored_agrees_upto_one_success Demo.down (Demo.orch 3 5)
           [Demo.timed_out; Demo.answer "a"; Demo.failed] (Demo.start 3 5)).
  vm_compute. lia.
Defined.
